(** * TaskPool: a bounded-concurrency task scheduler

    Shallow embedding of the [TaskPool] class (the revision with
    [chunkResultPool] and [autoSchedule]) and of the promise chains that its
    scheduling pass [executorFn] attaches to every task body.

    Modelling conventions.
    - JavaScript is single threaded: every public method and every promise
      callback runs to completion, so each is one atomic transition.
    - [executorFn] is declared [async] but contains no [await]; its body runs
      synchronously inside the caller.
    - A task body is an opaque closure that returns a promise (type [Task])
      and does not throw before it returns; what it computes is supplied by
      the environment when the promise settles ([Settle]).  In the chain [body(..).then(A).catch(B).finally(C)] every
      callback runs in a microtask of its own, hence one transition each:
      [Settle] runs [A] when the body fulfils and [B] when it rejects;
      [Catch] runs [B] after an exception left [A]; [Finally] runs [C].
    - Every call of a callback supplied by the client is recorded as an
      [Event].  The result callback ([executor]) may return or throw; the
      [submit] callback may return, return a promise that rejects, or throw.
      No call in the class is guarded: an exception leaves the promise
      callback that made the call at once.  The cleanup callbacks
      ([handleDelete]) return normally, and no callback calls back into the
      pool.
    - [concurrency] is an integer ([Z]); seq numbers and lengths are [nat]. *)

From Stdlib Require Import ZArith Lia.
From stdpp Require Import base option list sorting.

(** ** Data model *)

(** Task results and arguments ([any] in the source). *)
Definition Val := Z.
Bind Scope Z_scope with Val.

(** [Task] of type.ts: the body and the cleanup callback are closures, named
    here by an identifier. *)
Record Task := mkTask {
  args : list Val;
  body : nat;
  handleDelete : option nat
}.

(** [Task & { seq: number }]: the elements of [allTasks] and [restPool]. *)
Record SeqTask := mkSeqTask {
  t_task : Task;
  t_seq : nat
}.

(** The object literal [{ body, args, seq, deleted: false }] built by
    [executorFn].  It is a fresh object with exactly these properties; the
    mutable [deleted] flag lives in the promise closure that captured it
    (see [Closure]), [p_id] is the identity of the object. *)
Record Proxy := mkProxy {
  p_id : nat;
  p_body : nat;
  p_args : list Val;
  p_seq : nat
}.

(** [runningTask.handleDelete]: the proxy literal has no such property. *)
Definition proxy_handleDelete (p : Proxy) : option nat := None.

Inductive Status := success | error.

Record ResultRecord := mkResult {
  r_seq : nat;
  r_result : Val;
  r_status : Status
}.

(** State of one promise chain created by [executorFn]. *)
Inductive Phase :=
| Pending              (* the body has not settled *)
| Thrown (e : Val)     (* the [then] callback threw [e]; [catch] is due *)
| Settled              (* [then]/[catch] is done, [finally] is due *)
| Finished.

Record Closure := mkClosure {
  c_proxy : Proxy;
  c_deleted : bool;
  c_phase : Phase
}.

(** What a call of the result callback does. *)
Inductive ExecutorOutcome :=
| ExecutorReturns
| ExecutorThrows (e : Val).

(** [executor(totalResult, crtResult?, crtIndex?, error?)] *)
Definition ExecutorFn : Type :=
  list ResultRecord → option Val → option nat → option Val → ExecutorOutcome.

(** What a call of the [submit] callback does. *)
Inductive SubmitOutcome :=
| SubmitReturns          (* returns a value or a promise that fulfils *)
| SubmitRejects          (* returns a promise that rejects *)
| SubmitThrows.          (* throws synchronously *)

(** Calls that leave the pool. *)
Inductive Event :=
| BodyCall (seq : nat) (b : nat) (a : list Val)
| ExecutorCall (totalResult : list ResultRecord) (crtResult : option Val)
               (crtIndex : option nat) (err : option Val)
| SubmitCall (results : list ResultRecord)
| DeleteCall (h : nat) (a : list Val)
| ConsoleError (seq : nat) (err : Val).

(** The instance fields, the constructor parameters captured by the closures
    ([executor], [opt_immediately]) and the promise chains in flight. *)
Record TaskPool := mkPool {
  index : nat;
  concurrency : Z;
  allTasks : list SeqTask;
  runningPool : list Proxy;
  maintainOrder : bool;
  resultPool : list ResultRecord;
  chunkResultPool : list ResultRecord;
  restPool : list SeqTask;
  isRunning : bool;
  paused : bool;
  immediately : bool;
  autoSubmit : bool;
  submit : option (list ResultRecord → SubmitOutcome);
  autoSchedule : bool;
  executor : option ExecutorFn;
  opt_immediately : bool;
  promises : list Closure
}.

(** Field assignments. *)
Definition set_index (v : nat) (tp : TaskPool) : TaskPool :=
  mkPool v (concurrency tp) (allTasks tp) (runningPool tp) (maintainOrder tp)
    (resultPool tp) (chunkResultPool tp) (restPool tp) (isRunning tp) (paused tp)
    (immediately tp) (autoSubmit tp) (submit tp) (autoSchedule tp) (executor tp)
    (opt_immediately tp) (promises tp).

Definition set_concurrency (v : Z) (tp : TaskPool) : TaskPool :=
  mkPool (index tp) v (allTasks tp) (runningPool tp) (maintainOrder tp)
    (resultPool tp) (chunkResultPool tp) (restPool tp) (isRunning tp) (paused tp)
    (immediately tp) (autoSubmit tp) (submit tp) (autoSchedule tp) (executor tp)
    (opt_immediately tp) (promises tp).

Definition set_allTasks (v : list SeqTask) (tp : TaskPool) : TaskPool :=
  mkPool (index tp) (concurrency tp) v (runningPool tp) (maintainOrder tp)
    (resultPool tp) (chunkResultPool tp) (restPool tp) (isRunning tp) (paused tp)
    (immediately tp) (autoSubmit tp) (submit tp) (autoSchedule tp) (executor tp)
    (opt_immediately tp) (promises tp).

Definition set_runningPool (v : list Proxy) (tp : TaskPool) : TaskPool :=
  mkPool (index tp) (concurrency tp) (allTasks tp) v (maintainOrder tp)
    (resultPool tp) (chunkResultPool tp) (restPool tp) (isRunning tp) (paused tp)
    (immediately tp) (autoSubmit tp) (submit tp) (autoSchedule tp) (executor tp)
    (opt_immediately tp) (promises tp).

Definition set_resultPool (v : list ResultRecord) (tp : TaskPool) : TaskPool :=
  mkPool (index tp) (concurrency tp) (allTasks tp) (runningPool tp) (maintainOrder tp)
    v (chunkResultPool tp) (restPool tp) (isRunning tp) (paused tp)
    (immediately tp) (autoSubmit tp) (submit tp) (autoSchedule tp) (executor tp)
    (opt_immediately tp) (promises tp).

Definition set_chunkResultPool (v : list ResultRecord) (tp : TaskPool) : TaskPool :=
  mkPool (index tp) (concurrency tp) (allTasks tp) (runningPool tp) (maintainOrder tp)
    (resultPool tp) v (restPool tp) (isRunning tp) (paused tp)
    (immediately tp) (autoSubmit tp) (submit tp) (autoSchedule tp) (executor tp)
    (opt_immediately tp) (promises tp).

Definition set_restPool (v : list SeqTask) (tp : TaskPool) : TaskPool :=
  mkPool (index tp) (concurrency tp) (allTasks tp) (runningPool tp) (maintainOrder tp)
    (resultPool tp) (chunkResultPool tp) v (isRunning tp) (paused tp)
    (immediately tp) (autoSubmit tp) (submit tp) (autoSchedule tp) (executor tp)
    (opt_immediately tp) (promises tp).

Definition set_isRunning (v : bool) (tp : TaskPool) : TaskPool :=
  mkPool (index tp) (concurrency tp) (allTasks tp) (runningPool tp) (maintainOrder tp)
    (resultPool tp) (chunkResultPool tp) (restPool tp) v (paused tp)
    (immediately tp) (autoSubmit tp) (submit tp) (autoSchedule tp) (executor tp)
    (opt_immediately tp) (promises tp).

Definition set_paused (v : bool) (tp : TaskPool) : TaskPool :=
  mkPool (index tp) (concurrency tp) (allTasks tp) (runningPool tp) (maintainOrder tp)
    (resultPool tp) (chunkResultPool tp) (restPool tp) (isRunning tp) v
    (immediately tp) (autoSubmit tp) (submit tp) (autoSchedule tp) (executor tp)
    (opt_immediately tp) (promises tp).

Definition set_immediately (v : bool) (tp : TaskPool) : TaskPool :=
  mkPool (index tp) (concurrency tp) (allTasks tp) (runningPool tp) (maintainOrder tp)
    (resultPool tp) (chunkResultPool tp) (restPool tp) (isRunning tp) (paused tp)
    v (autoSubmit tp) (submit tp) (autoSchedule tp) (executor tp)
    (opt_immediately tp) (promises tp).

Definition set_autoSchedule (v : bool) (tp : TaskPool) : TaskPool :=
  mkPool (index tp) (concurrency tp) (allTasks tp) (runningPool tp) (maintainOrder tp)
    (resultPool tp) (chunkResultPool tp) (restPool tp) (isRunning tp) (paused tp)
    (immediately tp) (autoSubmit tp) (submit tp) v (executor tp)
    (opt_immediately tp) (promises tp).

Definition set_promises (v : list Closure) (tp : TaskPool) : TaskPool :=
  mkPool (index tp) (concurrency tp) (allTasks tp) (runningPool tp) (maintainOrder tp)
    (resultPool tp) (chunkResultPool tp) (restPool tp) (isRunning tp) (paused tp)
    (immediately tp) (autoSubmit tp) (submit tp) (autoSchedule tp) (executor tp)
    (opt_immediately tp) v.

(** ** Array helpers *)

(** [arr.sort((a, b) => a.seq - b.seq)]: the sort is stable. *)
Fixpoint insert_seq (r : ResultRecord) (l : list ResultRecord) : list ResultRecord :=
  match l with
  | [] => [r]
  | x :: l' => if r_seq r <=? r_seq x then r :: l else x :: insert_seq r l'
  end.

Fixpoint sort_by_seq (l : list ResultRecord) : list ResultRecord :=
  match l with
  | [] => []
  | r :: l' => insert_seq r (sort_by_seq l')
  end.

(** [taskPool.map(m => ({ ...m, seq: this.index++ }))] *)
Fixpoint assign_seq (i : nat) (ts : list Task) : list SeqTask :=
  match ts with
  | [] => []
  | t :: ts' => mkSeqTask t i :: assign_seq (S i) ts'
  end.

(** [arr.find(f => f.seq === seq)] *)
Definition find_task (seq : nat) (l : list SeqTask) : option SeqTask :=
  snd <$> list_find (λ f, t_seq f = seq) l.

Definition find_proxy (seq : nat) (l : list Proxy) : option Proxy :=
  snd <$> list_find (λ f, p_seq f = seq) l.

(** [arr.filter(f => f.seq !== seq)] *)
Definition drop_task (seq : nat) (l : list SeqTask) : list SeqTask :=
  filter (λ f, t_seq f ≠ seq) l.

Definition drop_proxy (seq : nat) (l : list Proxy) : list Proxy :=
  filter (λ f, p_seq f ≠ seq) l.

Definition drop_result (seq : nat) (l : list ResultRecord) : list ResultRecord :=
  filter (λ f, r_seq f ≠ seq) l.

(** ** The scheduling pass *)

(** The [while] loop of [executorFn]: as long as [restPool] is non-empty and
    [runningPool.length < concurrency], shift the head of [restPool], build its
    proxy, push it on [runningPool] and call the body. *)
Fixpoint fill (c : Z) (rest : list SeqTask) (running : list Proxy)
    (chains : list Closure)
    : list SeqTask * list Proxy * list Closure * list Event :=
  match rest with
  | [] => (rest, running, chains, [])
  | task :: rest' =>
      if (Z.of_nat (length running) <? c)%Z then
        let proxyTask :=
          mkProxy (length chains) (body (t_task task)) (args (t_task task)) (t_seq task) in
        let '(r, rp, ch, ev) :=
          fill c rest' (running ++ [proxyTask])
               (chains ++ [mkClosure proxyTask false Pending]) in
        (r, rp, ch, BodyCall (p_seq proxyTask) (p_body proxyTask) (p_args proxyTask) :: ev)
      else (rest, running, chains, [])
  end.

Definition executorFn (tp : TaskPool) : TaskPool * list Event :=
  if paused tp then (tp, [])
  else
    let '(r, rp, ch, ev) :=
      fill (concurrency tp) (restPool tp) (runningPool tp) (promises tp) in
    (set_promises ch (set_runningPool rp (set_restPool r tp)), ev).

(** ** Promise callbacks *)

Definition mark_phase (pid : nat) (c : Closure) (ph : Phase) (tp : TaskPool) : TaskPool :=
  set_promises (<[pid := mkClosure (c_proxy c) (c_deleted c) ph]> (promises tp)) tp.

(** [immediately && executor], the guard of the per-completion calls: it
    reads the constructor parameters. *)
Definition notify_each (tp : TaskPool) : option ExecutorFn :=
  if opt_immediately tp then executor tp else None.

(** [!immediately && executor], from the guard of the drain-time call. *)
Definition notify_drain (tp : TaskPool) : option ExecutorFn :=
  if opt_immediately tp then None else executor tp.

(** A call of the result callback: the call made, and the exception if the
    callback throws. *)
Definition call_executor (f : ExecutorFn) (totalResult : list ResultRecord)
    (crtResult : option Val) (crtIndex : option nat) (err : option Val)
    : list Event * option Val :=
  ([ExecutorCall totalResult crtResult crtIndex err],
   match f totalResult crtResult crtIndex err with
   | ExecutorReturns => None
   | ExecutorThrows e => Some e
   end).

(** The [then] callback.  The third component is the exception that leaves
    the callback when the result callback throws: the statements after the
    call are skipped. *)
Definition on_fulfilled (proxyTask : Proxy) (deleted : bool) (crtRes : Val)
    (tp : TaskPool) : TaskPool * list Event * option Val :=
  if deleted then (tp, [], None)
  else
    let rec := mkResult (p_seq proxyTask) crtRes success in
    let tp1 := set_resultPool (resultPool tp ++ [rec]) tp in
    let tp2 := set_chunkResultPool (chunkResultPool tp1 ++ [rec]) tp1 in
    let '(ev1, thrown) :=
      match notify_each tp2 with
      | Some f =>
          call_executor f (resultPool tp2) (Some crtRes) (Some (p_seq proxyTask)) None
      | None => ([], None)
      end in
    match thrown with
    | Some e => (tp2, ev1, Some e)
    | None =>
        let tp3 := set_runningPool (drop_proxy (p_seq proxyTask) (runningPool tp2)) tp2 in
        let '(tp4, ev2) := executorFn tp3 in
        (tp4, ev1 ++ ev2, None)
    end.

(** The [catch] callback, with the exception that leaves it, if any. *)
Definition on_rejected (proxyTask : Proxy) (deleted : bool) (err : Val)
    (tp : TaskPool) : TaskPool * list Event * option Val :=
  if deleted then (tp, [], None)
  else
    let rec := mkResult (p_seq proxyTask) err error in
    let tp1 := set_resultPool (resultPool tp ++ [rec]) tp in
    let tp2 := set_chunkResultPool (chunkResultPool tp1 ++ [rec]) tp1 in
    let tp3 := set_runningPool (drop_proxy (p_seq proxyTask) (runningPool tp2)) tp2 in
    let '(ev1, thrown) :=
      match notify_each tp3 with
      | Some f =>
          call_executor f (resultPool tp3) None (Some (p_seq proxyTask)) (Some err)
      | None => ([], None)
      end in
    match thrown with
    | Some e => (tp3, ev1, Some e)
    | None =>
        let '(tp4, ev2) := executorFn tp3 in
        (tp4, ev1 ++ [ConsoleError (p_seq proxyTask) err] ++ ev2, None)
    end.

(** [this.maintainOrder ? arr.sort(...) : arr]; [sort] works in place. *)
Definition ordered (tp : TaskPool) (l : list ResultRecord) : list ResultRecord :=
  if maintainOrder tp then sort_by_seq l else l.

(** The auto-submit block of the [finally] callback.  The boolean tells
    whether [submit] threw, which leaves the callback at once. *)
Definition flush_chunk (tp : TaskPool) : TaskPool * list Event * bool :=
  match submit tp with
  | Some f =>
      if autoSubmit tp && negb (Nat.eqb (length (chunkResultPool tp)) 0) then
        let tp1 := set_chunkResultPool (ordered tp (chunkResultPool tp)) tp in
        match f (chunkResultPool tp1) with
        | SubmitThrows => (tp1, [SubmitCall (chunkResultPool tp1)], true)
        | _ => (set_chunkResultPool [] tp1, [SubmitCall (chunkResultPool tp1)], false)
        end
      else (tp, [], false)
  | None => (tp, [], false)
  end.

(** The drain-time call of the result callback, first statement of the
    drain block. *)
Definition drain_call (tp : TaskPool) : TaskPool * list Event * option Val :=
  match notify_drain tp with
  | Some f =>
      if negb (Nat.eqb (length (resultPool tp)) 0) then
        let tp1 := set_resultPool (ordered tp (resultPool tp)) tp in
        let '(ev, thrown) := call_executor f (resultPool tp1) None None None in
        (tp1, ev, thrown)
      else (tp, [], None)
  | None => (tp, [], None)
  end.

(** The [finally] callback.  An exception of the result callback leaves it
    before the auto-submit block and the reset of [isRunning], an exception
    of [submit] before the chunk is cleared. *)
Definition on_finally (tp : TaskPool) : TaskPool * list Event :=
  if Nat.eqb (length (restPool tp)) 0 && Nat.eqb (length (runningPool tp)) 0 then
    let '(tp1, ev1, thrown) := drain_call tp in
    match thrown with
    | Some _ => (tp1, ev1)
    | None =>
        let '(tp2, ev2, threw) := flush_chunk tp1 in
        if threw then (tp2, ev1 ++ ev2)
        else (set_isRunning false tp2, ev1 ++ ev2)
    end
  else (tp, []).

(** ** Public methods *)

Inductive Outcome := Fulfilled (v : Val) | Rejected (e : Val).

(** The argument of [addTask]: one task or an array of tasks. *)
Inductive TaskArg := One (t : Task) | Many (ts : list Task).

Definition new_TaskPool (taskPool : list Task) (executor : option ExecutorFn)
    (concurrency : Z) (maintainOrder immediately autoSubmit : bool)
    (submit : option (list ResultRecord → SubmitOutcome)) : TaskPool :=
  let all := assign_seq 0 taskPool in
  {| index := length taskPool; concurrency := concurrency; allTasks := all;
     runningPool := []; maintainOrder := maintainOrder; resultPool := [];
     chunkResultPool := []; restPool := all; isRunning := false; paused := false;
     immediately := immediately; autoSubmit := autoSubmit; submit := submit;
     autoSchedule := true; executor := executor;
     opt_immediately := immediately; promises := [] |}.

Definition setImmediately (newVal : bool) (tp : TaskPool) : TaskPool :=
  set_immediately newVal tp.

Definition setAutoSchedule (val : bool) (tp : TaskPool) : TaskPool :=
  set_autoSchedule val tp.

Definition start (tp : TaskPool) : TaskPool * list Event :=
  if isRunning tp then (tp, [])
  else executorFn (set_isRunning true tp).

Definition addTask (task : TaskArg) (tp : TaskPool) : TaskPool * list Event :=
  let tasksWithSeq :=
    match task with
    | Many ts => assign_seq (index tp) ts
    | One t => [mkSeqTask t (index tp)]
    end in
  let tp1 := set_index (index tp + length tasksWithSeq) tp in
  let tp2 := set_restPool (restPool tp1 ++ tasksWithSeq) tp1 in
  let tp3 := set_allTasks (allTasks tp2 ++ tasksWithSeq) tp2 in
  if autoSchedule tp3 then
    if isRunning tp3 then executorFn tp3 else start tp3
  else (tp3, []).

(** [x.handleDelete?.(...(x.args ?? []))] *)
Definition call_handleDelete (h : option nat) (a : list Val) : list Event :=
  match h with
  | Some f => [DeleteCall f a]
  | None => []
  end.

Definition mark_deleted (pid : nat) (chains : list Closure) : list Closure :=
  match chains !! pid with
  | Some c => <[pid := mkClosure (c_proxy c) true (c_phase c)]> chains
  | None => chains
  end.

Definition deleteTask (seq : nat) (tp : TaskPool) : TaskPool * list Event :=
  match find_proxy seq (runningPool tp) with
  | Some runningTask =>
      let tp1 := set_promises (mark_deleted (p_id runningTask) (promises tp)) tp in
      let ev1 := call_handleDelete (proxy_handleDelete runningTask) (p_args runningTask) in
      let tp2 := set_runningPool (drop_proxy seq (runningPool tp1)) tp1 in
      let tp3 := set_allTasks (drop_task seq (allTasks tp2)) tp2 in
      let '(tp4, ev2) := executorFn tp3 in
      (tp4, ev1 ++ ev2)
  | None =>
      let '(tp3, ev1) :=
        match find_task seq (restPool tp) with
        | Some restTask =>
            let ev := call_handleDelete (handleDelete (t_task restTask))
                                        (args (t_task restTask)) in
            let tp1 := set_restPool (drop_task seq (restPool tp)) tp in
            (set_allTasks (drop_task seq (allTasks tp1)) tp1, ev)
        | None =>
            match find_task seq (allTasks tp) with
            | Some doneTarget =>
                let ev := call_handleDelete (handleDelete (t_task doneTarget))
                                            (args (t_task doneTarget)) in
                let tp1 := set_allTasks (drop_task seq (allTasks tp)) tp in
                let tp2 := set_resultPool (drop_result seq (resultPool tp1)) tp1 in
                (set_chunkResultPool (drop_result seq (chunkResultPool tp2)) tp2, ev)
            | None => (tp, [])
            end
        end in
      let '(tp4, ev2) := executorFn tp3 in
      (tp4, ev1 ++ ev2)
  end.

Definition stop (tp : TaskPool) : TaskPool :=
  set_paused false (set_isRunning false (set_runningPool [] (set_restPool [] tp))).

Definition reset (tp : TaskPool) : TaskPool :=
  set_paused false (set_isRunning false (set_restPool [] (set_chunkResultPool []
    (set_resultPool [] (set_runningPool [] (set_allTasks [] (set_index 0 tp))))))).

Definition setConcurrency (newConcurrency : Z) (tp : TaskPool) : TaskPool :=
  set_concurrency newConcurrency tp.

Record StatusReport := mkStatus {
  total : nat;
  running : nat;
  waiting : nat;
  finished : nat;
  chunkFinished : nat;
  results : list ResultRecord;
  st_paused : bool
}.

Definition getStatus (tp : TaskPool) : StatusReport :=
  {| total := length (allTasks tp); running := length (runningPool tp);
     waiting := length (restPool tp); finished := length (resultPool tp);
     chunkFinished := length (chunkResultPool tp); results := resultPool tp;
     st_paused := paused tp |}.

Definition pause (tp : TaskPool) : TaskPool := set_paused true tp.

Definition resume (tp : TaskPool) : TaskPool * list Event :=
  if negb (paused tp) then (tp, [])
  else
    let tp1 := set_paused false tp in
    if negb (isRunning tp1) then start tp1 else executorFn tp1.

Definition isPaused (tp : TaskPool) : bool := paused tp.

Definition getAllTasks (tp : TaskPool) : list SeqTask := allTasks tp.

(** ** Transitions *)

Inductive Op :=
| AddTask (task : TaskArg)
| DeleteTask (seq : nat)
| Start
| Stop
| Reset
| SetConcurrency (n : Z)
| Pause
| Resume
| SetImmediately (b : bool)
| SetAutoSchedule (b : bool)
| Settle (pid : nat) (o : Outcome)
| Catch (pid : nat)
| Finally (pid : nat).

(** Where the chain stands after its [then] callback. *)
Definition then_phase (thrown : option Val) : Phase :=
  match thrown with
  | Some e => Thrown e
  | None => Settled
  end.

(** The body of chain [pid] settles.  When it fulfils the [then] callback
    runs, and an exception that leaves it is handed to [catch]; when it
    rejects the [catch] callback runs.  A body settles once; on any other
    [pid] nothing happens. *)
Definition settle (pid : nat) (o : Outcome) (tp : TaskPool) : TaskPool * list Event :=
  match promises tp !! pid with
  | Some c =>
      match c_phase c with
      | Pending =>
          match o with
          | Fulfilled v =>
              let '(tp1, ev, thrown) := on_fulfilled (c_proxy c) (c_deleted c) v tp in
              (mark_phase pid c (then_phase thrown) tp1, ev)
          | Rejected e =>
              let '(tp1, ev, _) := on_rejected (c_proxy c) (c_deleted c) e tp in
              (mark_phase pid c Settled tp1, ev)
          end
      | _ => (tp, [])
      end
  | None => (tp, [])
  end.

(** The [catch] callback of chain [pid] runs with the exception that left its
    [then] callback.  It reads the [deleted] flag when it runs. *)
Definition catch (pid : nat) (tp : TaskPool) : TaskPool * list Event :=
  match promises tp !! pid with
  | Some c =>
      match c_phase c with
      | Thrown e =>
          let '(tp1, ev, _) := on_rejected (c_proxy c) (c_deleted c) e tp in
          (mark_phase pid c Settled tp1, ev)
      | _ => (tp, [])
      end
  | None => (tp, [])
  end.

(** The [finally] callback of chain [pid], after its [then] or [catch]. *)
Definition finally (pid : nat) (tp : TaskPool) : TaskPool * list Event :=
  match promises tp !! pid with
  | Some c =>
      match c_phase c with
      | Settled => on_finally (mark_phase pid c Finished tp)
      | _ => (tp, [])
      end
  | None => (tp, [])
  end.

Definition step (op : Op) (tp : TaskPool) : TaskPool * list Event :=
  match op with
  | AddTask t => addTask t tp
  | DeleteTask seq => deleteTask seq tp
  | Start => start tp
  | Stop => (stop tp, [])
  | Reset => (reset tp, [])
  | SetConcurrency n => (setConcurrency n tp, [])
  | Pause => (pause tp, [])
  | Resume => resume tp
  | SetImmediately b => (setImmediately b tp, [])
  | SetAutoSchedule b => (setAutoSchedule b tp, [])
  | Settle pid o => settle pid o tp
  | Catch pid => catch pid tp
  | Finally pid => finally pid tp
  end.

Fixpoint run (ops : list Op) (tp : TaskPool) : TaskPool * list Event :=
  match ops with
  | [] => (tp, [])
  | op :: ops' =>
      let '(tp1, ev1) := step op tp in
      let '(tp2, ev2) := run ops' tp1 in
      (tp2, ev1 ++ ev2)
  end.

(** ** Closed form of the scheduling pass *)

Fixpoint proxies_from (i : nat) (ts : list SeqTask) : list Proxy :=
  match ts with
  | [] => []
  | t :: ts' =>
      mkProxy i (body (t_task t)) (args (t_task t)) (t_seq t) :: proxies_from (S i) ts'
  end.

Definition fresh_closure (p : Proxy) : Closure := mkClosure p false Pending.

Definition body_call (p : Proxy) : Event := BodyCall (p_seq p) (p_body p) (p_args p).

(** Number of tasks one pass moves from [restPool] to [runningPool]. *)
Definition free_slots (c : Z) (rest : list SeqTask) (running : list Proxy) : nat :=
  length rest `min` Z.to_nat (c - Z.of_nat (length running)).


(** ** Specification vocabulary *)

(** The concurrency bound as the specification states it. *)
Definition within_bound (tp : TaskPool) : Prop :=
  (Z.of_nat (length (runningPool tp)) ≤ Z.max (concurrency tp) 0)%Z.

(** The bound in force after a transition. *)
Definition next_concurrency (op : Op) (c : Z) : Z :=
  match op with
  | SetConcurrency n => n
  | _ => c
  end.

(** Largest bound in force during a run that starts with bound [c]. *)
Fixpoint peak (c : Z) (ops : list Op) : Z :=
  match ops with
  | [] => c
  | SetConcurrency n :: ops' => Z.max c (peak n ops')
  | _ :: ops' => peak c ops'
  end.

(** No [setConcurrency] of the run lowers the bound in force. *)
Fixpoint never_lowered (c : Z) (ops : list Op) : bool :=
  match ops with
  | [] => true
  | SetConcurrency n :: ops' => (c <=? n)%Z && never_lowered n ops'
  | _ :: ops' => never_lowered c ops'
  end.

(** The field written by [setImmediately], after a transition. *)
Definition next_immediately (op : Op) (b : bool) : bool :=
  match op with
  | SetImmediately b' => b'
  | _ => b
  end.

(** Strictly ascending by [seq]. *)
Fixpoint ascending_seq (l : list ResultRecord) : bool :=
  match l with
  | x :: l' =>
      match l' with
      | y :: _ => (r_seq x <? r_seq y) && ascending_seq l'
      | [] => true
      end
  | [] => true
  end.

(** Ascending by [seq], not strictly. *)
Definition seq_le (a b : ResultRecord) : Prop := r_seq a ≤ r_seq b.

(** The array a callback receives, if the event is a call of the result or
    the submit callback. *)
Definition delivered (e : Event) : option (list ResultRecord) :=
  match e with
  | ExecutorCall l _ _ _ => Some l
  | SubmitCall l => Some l
  | _ => None
  end.

Definition is_body_call (e : Event) : bool :=
  match e with
  | BodyCall _ _ _ => true
  | _ => false
  end.

Definition is_delete_call (e : Event) : bool :=
  match e with
  | DeleteCall _ _ => true
  | _ => false
  end.


(** The event is a call of the result callback that throws. *)
Definition executor_call_throws (tp : TaskPool) (e : Event) : bool :=
  match e, executor tp with
  | ExecutorCall l crt idx err, Some f =>
      match f l crt idx err with
      | ExecutorThrows _ => true
      | ExecutorReturns => false
      end
  | _, _ => false
  end.

(** The event is a call of [submit] that throws. *)
Definition submit_call_throws (tp : TaskPool) (e : Event) : bool :=
  match e, submit tp with
  | SubmitCall l, Some f =>
      match f l with
      | SubmitThrows => true
      | _ => false
      end
  | _, _ => false
  end.

(** A per-completion call of the result callback: it carries the seq of the
    task that settled. *)
Definition is_completion_call (e : Event) : bool :=
  match e with
  | ExecutorCall _ _ (Some _) _ => true
  | _ => false
  end.

(** Transitions that leave the pause flag set: all but [resume], [stop] and
    [reset]. *)
Definition keeps_pause (op : Op) : bool :=
  match op with
  | Resume | Stop | Reset => false
  | _ => true
  end.

(** Transitions that, under pause, leave [restPool] alone as well. *)
Definition keeps_queue (op : Op) : bool :=
  match op with
  | AddTask _ | DeleteTask _ => false
  | _ => keeps_pause op
  end.

(** Drain: nothing waits and nothing runs. *)
Definition drained (tp : TaskPool) : bool :=
  Nat.eqb (length (restPool tp)) 0 && Nat.eqb (length (runningPool tp)) 0.

(** Chain [pid] exists and its proxy carries [deleted = true]. *)
Definition chain_deleted (pid : nat) (chains : list Closure) : Prop :=
  c_deleted <$> chains !! pid = Some true.

(** The [then]/[catch] stage of a chain is not over: the body has not
    settled, or an exception left the [then] callback and [catch] is due. *)
Definition unsettled (ph : Phase) : bool :=
  match ph with
  | Pending | Thrown _ => true
  | Settled | Finished => false
  end.

(** Every proxy of [running] is the proxy of a chain whose [deleted] flag is
    unset and whose [then]/[catch] stage is not over. *)
Definition tracked (chains : list Closure) (running : list Proxy) : Prop :=
  ∀ p, p ∈ running →
    ∃ ph, chains !! p_id p = Some (mkClosure p false ph) ∧ unsettled ph = true.

Definition running_tracked (tp : TaskPool) : Prop :=
  tracked (promises tp) (runningPool tp).

(** Every proxy of [running] is the proxy of a chain whose body has not
    settled and whose [deleted] flag is unset. *)
Definition live (chains : list Closure) (running : list Proxy) : Prop :=
  ∀ p, p ∈ running → chains !! p_id p = Some (mkClosure p false Pending).

(** Chain [pid] is [c] and no proxy of [running] refers to it. *)
Definition abandoned (pid : nat) (c : Closure) (chains : list Closure)
    (running : list Proxy) : Prop :=
  chains !! pid = Some c ∧ ∀ p, p ∈ running → p_id p ≠ pid.

Definition is_settle_of (pid : nat) (op : Op) : bool :=
  match op with
  | Settle q _ => Nat.eqb q pid
  | _ => false
  end.

(** The record the settlement callbacks build for a task. *)
Definition outcome_record (seq : nat) (o : Outcome) : ResultRecord :=
  match o with
  | Fulfilled v => mkResult seq v success
  | Rejected e => mkResult seq e error
  end.

(** The per-completion call of the result callback. *)
Definition completion_call (l : list ResultRecord) (seq : nat) (o : Outcome) : Event :=
  match o with
  | Fulfilled v => ExecutorCall l (Some v) (Some seq) None
  | Rejected e => ExecutorCall l None (Some seq) (Some e)
  end.

(** ** Sample pools *)

(** A task computing [a + b], as in the README. *)
Definition add_task (a b : Val) : Task := mkTask [a; b] 0 None.

(** A task with a cleanup callback. *)
Definition guarded_task (a : Val) : Task := mkTask [a; a] 0 (Some 9).

(** A result callback that returns on every call. *)
Definition returning : ExecutorFn := λ _ _ _ _, ExecutorReturns.

(** A result callback that throws [e] on every call. *)
Definition throwing (e : Val) : ExecutorFn := λ _ _ _ _, ExecutorThrows e.

(** No task at construction. *)
Definition pool_empty : TaskPool :=
  new_TaskPool [] None 1 false false false None.

(** One task, [immediately = false], with a result callback. *)
Definition pool_deferred : TaskPool :=
  new_TaskPool [add_task 1 1] (Some returning) 1 false false false None.

(** Two tasks, [concurrency = 2], no callbacks. *)
Definition pool_two : TaskPool :=
  new_TaskPool [add_task 1 1; add_task 2 2] None 2 false false false None.

(** Two tasks, [concurrency = 2], [maintainOrder = true],
    [immediately = true], with a result callback. *)
Definition pool_ordered_immediate : TaskPool :=
  new_TaskPool [add_task 1 1; add_task 2 2] (Some returning) 2 true true false None.

(** Three tasks, [concurrency = 2], no callbacks. *)
Definition pool_three : TaskPool :=
  new_TaskPool [add_task 1 1; add_task 2 2; add_task 3 3] None 2 false false false None.

(** Five tasks [(1,1) .. (5,5)], [concurrency = 2], [maintainOrder = true],
    [immediately = false], with a result callback. *)
Definition pool_five : TaskPool :=
  new_TaskPool [add_task 1 1; add_task 2 2; add_task 3 3; add_task 4 4; add_task 5 5]
               (Some returning) 2 true false false None.

(** Three tasks with cleanup callbacks, two of them running, after the bound
    was lowered from 2 to 1. *)
Definition pool_lowered : TaskPool :=
  (run [Start; SetConcurrency 1]
       (new_TaskPool [guarded_task 1; guarded_task 2; guarded_task 3]
                     None 2 false false false None)).1.

(** One task, [autoSubmit] on, a [submit] callback that throws; the task has
    fulfilled and its [finally] callback is due. *)
Definition pool_submit_throws : TaskPool :=
  (run [Start; Settle 0 (Fulfilled 2)]
       (new_TaskPool [add_task 1 1] None 1 false false true
                     (Some (λ _, SubmitThrows)))).1.


(** One task, [autoSubmit] on, a drain-time result callback that throws; the
    task has fulfilled and its [finally] callback is due. *)
Definition pool_drain_throws : TaskPool :=
  (run [Start; Settle 0 (Fulfilled 2)]
       (new_TaskPool [add_task 1 1] (Some (throwing 13)) 1 false false true
                     (Some (λ _, SubmitReturns)))).1.

(** One task, [autoSubmit] on, a [submit] callback that returns when it is
    handed one record and throws otherwise; the task has fulfilled and its
    [finally] callback is due. *)
Definition pool_submit_picky : TaskPool :=
  (run [Start; Settle 0 (Fulfilled 2)]
       (new_TaskPool [add_task 1 1] None 1 false false true
                     (Some (λ l, match l with
                                 | [_] => SubmitReturns
                                 | _ => SubmitThrows
                                 end)))).1.

(** One task, [immediately = true], a result callback that throws. *)
Definition pool_each_throws : TaskPool :=
  new_TaskPool [add_task 1 1] (Some (throwing 13)) 1 false true false None.

(** Two tasks with a drain-time result callback; task 0 has fulfilled and
    task 1 was deleted while running. *)
Definition pool_last_deleted : TaskPool :=
  (run [Start; Settle 0 (Fulfilled 2); Finally 0; DeleteTask 1]
       (new_TaskPool [add_task 1 1; add_task 2 2] (Some returning) 2 false false false None)).1.

(** ** Statements of the specification that the code does not meet *)

(** The scenario "pause() right after start()" as the specification states
    it: no body is called, all tasks keep waiting. *)
Definition pause_after_start_holds_all (tp : TaskPool) : Prop :=
  let r := run [Start; Pause] tp in
  filter is_body_call r.2 = []
  ∧ waiting (getStatus r.1) = length (restPool tp)
  ∧ running (getStatus r.1) = 0.

(** The scenario "deleteTask on a running seq" as the specification states
    it, for the effects of the call itself: the proxy is marked, the cleanup
    callback of the task is called once with the task's arguments, and a
    waiting task leaves [restPool] when the pool is not paused. *)
Definition delete_running_as_specified (tp : TaskPool) (seq : nat) : Prop :=
  ∀ p t,
    find_proxy seq (runningPool tp) = Some p →
    find_task seq (allTasks tp) = Some t →
    let r := deleteTask seq tp in
    chain_deleted (p_id p) (promises r.1)
    ∧ (∀ h, handleDelete (t_task t) = Some h →
         filter is_delete_call r.2 = [DeleteCall h (args (t_task t))])
    ∧ (restPool tp ≠ [] → paused tp = false →
         length (restPool r.1) < length (restPool tp)).


(** "The settlement of a deleted proxy changes nothing and calls nothing":
    after both callbacks of the chain, no call was made and the pool differs
    at most in the bookkeeping of the chain itself. *)
Definition deleted_settlement_inert (tp : TaskPool) (pid : nat) (o : Outcome) : Prop :=
  let r := run [Settle pid o; Finally pid] tp in
  r.2 = [] ∧ set_promises (promises tp) r.1 = tp.

(** ** Arrays as shared objects

    The fields of the pool hold references to arrays, and [getStatus] and
    [getAllTasks] hand arrays to the caller.  To tell a copy from an alias,
    arrays live in a store and are named by their position in it. *)
Module Arrays.

Record Store := mkStore {
  task_arrays : list (list SeqTask);
  result_arrays : list (list ResultRecord)
}.

(** The array-valued fields the accessors expose: [this.allTasks] and
    [this.resultPool]. *)
Record Refs := mkRefs {
  ref_allTasks : nat;
  ref_resultPool : nat
}.

(** [arr.slice()]: a new array with the same elements. *)
Definition slice_results (r : nat) (σ : Store) : nat * Store :=
  (length (result_arrays σ),
   mkStore (task_arrays σ) (result_arrays σ ++ [default [] (result_arrays σ !! r)])).

(** The field [results] of [getStatus()]: [this.resultPool.slice()]. *)
Definition getStatus_results (o : Refs) (σ : Store) : nat * Store :=
  slice_results (ref_resultPool o) σ.

(** [getAllTasks()]: [return this.allTasks]. *)
Definition getAllTasks_ref (o : Refs) (σ : Store) : nat * Store :=
  (ref_allTasks o, σ).

(** The caller mutates an array it holds ([push], [pop], [splice], [sort],
    an assignment to an index): the object at that reference gets new
    contents. *)
Definition mutate_tasks (r : nat) (f : list SeqTask → list SeqTask) (σ : Store) : Store :=
  mkStore (alter f r (task_arrays σ)) (result_arrays σ).

Definition mutate_results (r : nat) (f : list ResultRecord → list ResultRecord)
    (σ : Store) : Store :=
  mkStore (task_arrays σ) (alter f r (result_arrays σ)).

(** What the pool finds in its own fields. *)
Definition read_allTasks (o : Refs) (σ : Store) : list SeqTask :=
  default [] (task_arrays σ !! ref_allTasks o).

Definition read_resultPool (o : Refs) (σ : Store) : list ResultRecord :=
  default [] (result_arrays σ !! ref_resultPool o).

(** The store holds the arrays of the pool [tp]. *)
Definition holds (o : Refs) (σ : Store) (tp : TaskPool) : Prop :=
  task_arrays σ !! ref_allTasks o = Some (allTasks tp)
  ∧ result_arrays σ !! ref_resultPool o = Some (resultPool tp).

(** "Mutating the array returned by [getStatus().results] or by
    [getAllTasks()] leaves [resultPool] and [allTasks] unchanged." *)
Definition handed_out_arrays_private (o : Refs) (σ : Store) : Prop :=
  (∀ f, let r := getStatus_results o σ in
        read_resultPool o (mutate_results r.1 f r.2) = read_resultPool o σ
        ∧ read_allTasks o (mutate_results r.1 f r.2) = read_allTasks o σ)
  ∧ (∀ f, let r := getAllTasks_ref o σ in
          read_resultPool o (mutate_tasks r.1 f r.2) = read_resultPool o σ
          ∧ read_allTasks o (mutate_tasks r.1 f r.2) = read_allTasks o σ).

(** The arrays of [pool_two] after construction. *)
Definition store_two : Store := mkStore [allTasks pool_two] [resultPool pool_two].

Definition refs_two : Refs := mkRefs 0 0.

End Arrays.


(** ** Vocabulary for the properties of the methods *)

(** The call of its body that a pass makes for a waiting task. *)
Definition task_call (t : SeqTask) : Event :=
  BodyCall (t_seq t) (body (t_task t)) (args (t_task t)).

(** The tasks handed to [addTask]. *)
Definition tasks_of (task : TaskArg) : list Task :=
  match task with
  | One t => [t]
  | Many ts => ts
  end.

Definition is_set_concurrency (op : Op) : bool :=
  match op with
  | SetConcurrency _ => true
  | _ => false
  end.

Definition is_reset (op : Op) : bool :=
  match op with
  | Reset => true
  | _ => false
  end.

(** [deleteTask] and [reset], the two methods that remove records. *)
Definition removes_records (op : Op) : bool :=
  match op with
  | DeleteTask _ | Reset => true
  | _ => false
  end.

(** [stop] and [reset], the two methods that drop running proxies without
    marking them. *)
Definition drops_running (op : Op) : bool :=
  match op with
  | Stop | Reset => true
  | _ => false
  end.

(** The body of the task with this seq is called. *)
Definition starts_seq (seq : nat) (e : Event) : bool :=
  match e with
  | BodyCall s _ _ => Nat.eqb s seq
  | _ => false
  end.

(** ** Consistency of the pools

    What the pools of a [TaskPool] satisfy as long as neither [stop] nor
    [reset] is called and no exception leaves a [then] callback: the seqs of
    the known tasks are distinct and below [index]; every known task is
    running, waiting or finished, and only one of these; the chains of the
    running proxies are the pending ones that are not marked deleted; the
    records of the chunk have distinct seqs, each the seq of a record of
    [resultPool]. *)
Record Consistent (idx : nat) (all : list SeqTask) (rp : list Proxy)
    (rest : list SeqTask) (res chunk : list ResultRecord)
    (chains : list Closure) : Prop := mkConsistent {
  cons_nodup : NoDup (t_seq <$> all);
  cons_perm : t_seq <$> all ≡ₚ (p_seq <$> rp) ++ (t_seq <$> rest) ++ (r_seq <$> res);
  cons_index : Forall (λ t, t_seq t < idx) all;
  cons_ids : ∀ pid c, chains !! pid = Some c → p_id (c_proxy c) = pid;
  cons_tracked : ∀ pid c, chains !! pid = Some c →
                   c_phase c = Pending → c_deleted c = false → c_proxy c ∈ rp;
  cons_live : live chains rp;
  cons_chunk_nodup : NoDup (r_seq <$> chunk);
  cons_chunk_sub : (r_seq <$> chunk) ⊆ (r_seq <$> res)
}.

Definition consistent (tp : TaskPool) : Prop :=
  Consistent (index tp) (allTasks tp) (runningPool tp) (restPool tp)
             (resultPool tp) (chunkResultPool tp) (promises tp).

(** None of the per-completion calls of the result callback among the
    events throws. *)
Definition completion_calls_return (tp : TaskPool) (ev : list Event) : bool :=
  forallb (λ e, negb (is_completion_call e && executor_call_throws tp e)) ev.

(** No [then] callback has thrown without its [catch] callback having run. *)
Definition none_thrown (chains : list Closure) : Prop :=
  ∀ pid c e, chains !! pid = Some c → c_phase c ≠ Thrown e.

(** Strictly ascending by [seq]. *)
Definition seq_lt (a b : ResultRecord) : Prop := r_seq a < r_seq b.

(** The seq of the task whose body an event calls. *)
Definition started_seq (e : Event) : option nat :=
  match e with
  | BodyCall s _ _ => Some s
  | _ => None
  end.

(** The seqs of the bodies called, in call order. *)
Definition started (ev : list Event) : list nat := omap started_seq ev.

(** No free slot is left for a waiting task: [restPool] is empty or
    [runningPool] holds at least [concurrency] proxies. *)
Definition saturated (tp : TaskPool) : Prop :=
  free_slots (concurrency tp) (restPool tp) (runningPool tp) = 0.

(** The methods that can leave a free slot beside a waiting task. *)
Definition opens_slot (op : Op) : bool :=
  match op with
  | SetConcurrency _ | Pause | SetAutoSchedule _ => true
  | _ => false
  end.

(** Settlements in which every body fulfils, and their [finally] callbacks. *)
Definition only_fulfils (op : Op) : bool :=
  match op with
  | Settle _ (Fulfilled _) | Finally _ => true
  | _ => false
  end.

(** The tasks started so far ([hs], in call order) followed by the waiting
    tasks are in ascending seq order, all below [idx]. *)
Definition starts_in_order (idx : nat) (rest : list SeqTask) (hs : list nat) : Prop :=
  StronglySorted lt (hs ++ (t_seq <$> rest))
  ∧ Forall (λ s, s < idx) (hs ++ (t_seq <$> rest)).
(** * Properties *)

(** ** The scheduling pass in closed form *)

Lemma length_proxies_from i ts : length (proxies_from i ts) = length ts.
Proof. revert i; induction ts as [|t ts IH]; intros i; simpl; [done|]. by rewrite IH. Qed.

Lemma fill_eq c rest running chains :
  fill c rest running chains =
    let ps := proxies_from (length chains) (take (free_slots c rest running) rest) in
    (drop (free_slots c rest running) rest, running ++ ps,
     chains ++ (fresh_closure <$> ps), body_call <$> ps).
Proof.
  revert running chains.
  induction rest as [|t rest IH]; intros running chains; simpl.
  - by rewrite !app_nil_r.
  - unfold free_slots; simpl length.
    destruct (Z.ltb_spec (Z.of_nat (length running)) c) as [Hlt|Hge].
    + rewrite IH. unfold free_slots. rewrite !length_app. simpl length.
      replace (Z.to_nat (c - Z.of_nat (length running)))
        with (S (Z.to_nat (c - Z.of_nat (length running + 1)))) by lia.
      simpl. rewrite <- !app_assoc. simpl.
      by replace (length chains + 1) with (S (length chains)) by lia.
    + replace (Z.to_nat (c - Z.of_nat (length running))) with 0 by lia.
      rewrite Nat.min_0_r. simpl. by rewrite !app_nil_r.
Qed.

Lemma executorFn_eq tp :
  executorFn tp =
    if paused tp then (tp, [])
    else
      let k := free_slots (concurrency tp) (restPool tp) (runningPool tp) in
      let ps := proxies_from (length (promises tp)) (take k (restPool tp)) in
      (set_promises (promises tp ++ (fresh_closure <$> ps))
         (set_runningPool (runningPool tp ++ ps)
            (set_restPool (drop k (restPool tp)) tp)),
       body_call <$> ps).
Proof. unfold executorFn. destruct (paused tp); [done|]. by rewrite fill_eq. Qed.

(** The five-task scenario: the bodies start in FIFO order, two at a time;
    whatever the settlement order, the result callback is called once, at
    drain, with the five records in seq order. *)
Example five_tasks_scenario :
  (run [Start;
        Settle 1 (Fulfilled 4); Finally 1; Settle 0 (Fulfilled 2); Finally 0;
        Settle 3 (Fulfilled 8); Finally 3; Settle 2 (Fulfilled 6); Finally 2;
        Settle 4 (Fulfilled 10); Finally 4] pool_five).2 =
    [BodyCall 0 0 [1; 1]%Z; BodyCall 1 0 [2; 2]%Z; BodyCall 2 0 [3; 3]%Z;
     BodyCall 3 0 [4; 4]%Z; BodyCall 4 0 [5; 5]%Z;
     ExecutorCall [mkResult 0 2 success; mkResult 1 4 success; mkResult 2 6 success;
                   mkResult 3 8 success; mkResult 4 10 success] None None None].
Proof. by vm_compute. Qed.

(** ** Proof steps shared by the case analyses over transitions *)

Ltac pool_simpl :=
  cbn -[fill filter list_find lookup insert sort_by_seq mark_deleted] in *.

Ltac pool_unfold :=
  unfold step, addTask, deleteTask, resume, start, stop, reset, settle, finally,
    catch, on_fulfilled, on_rejected, on_finally, drain_call, flush_chunk,
    call_executor, executorFn, notify_each, notify_drain, then_phase, mark_phase,
    ordered, call_handleDelete in *;
  pool_simpl.

Ltac pool_cases := repeat (case_match; pool_simpl; simplify_eq).

(** The settlement callbacks record the new phase of their chain after the
    pass they run; a pass only appends chains, so the two commute. *)
Lemma fill_insert c rest rp P r rp' P' ev q x :
  q < length P →
  fill c rest rp P = (r, rp', P', ev) →
  fill c rest rp (<[q := x]> P) = (r, rp', <[q := x]> P', ev).
Proof.
  intros Hq. rewrite !fill_eq, length_insert. intros [= <- <- <- <-].
  by rewrite insert_app_l.
Qed.

Ltac fill_commute :=
  repeat match goal with
         | H : fill _ _ _ ?P = (_, _, ?P', _), Hc : ?P !! ?q = Some _
           |- context [<[?q := ?x]> ?P'] =>
             apply (fill_insert _ _ _ _ _ _ _ _ q x (lookup_lt_Some _ _ _ Hc)) in H
         end.

(** ** Concurrency bound *)

#[local] Arguments executorFn : simpl never.
#[local] Arguments start : simpl never.

Lemma length_drop_proxy seq l : length (drop_proxy seq l) ≤ length l.
Proof. apply length_filter. Qed.

Lemma executorFn_running tp :
  (Z.of_nat (length (runningPool (executorFn tp).1))
   ≤ Z.max (Z.of_nat (length (runningPool tp))) (Z.max (concurrency tp) 0))%Z
  ∧ concurrency (executorFn tp).1 = concurrency tp.
Proof.
  rewrite executorFn_eq. destruct (paused tp); simpl; [lia|].
  rewrite length_app, length_proxies_from, length_take.
  unfold free_slots. lia.
Qed.

Lemma start_running tp :
  (Z.of_nat (length (runningPool (start tp).1))
   ≤ Z.max (Z.of_nat (length (runningPool tp))) (Z.max (concurrency tp) 0))%Z
  ∧ concurrency (start tp).1 = concurrency tp.
Proof.
  unfold start. destruct (isRunning tp); simpl; [lia|].
  apply (executorFn_running (set_isRunning true tp)).
Qed.

Lemma on_fulfilled_running p d v tp :
  (Z.of_nat (length (runningPool (on_fulfilled p d v tp).1.1))
   ≤ Z.max (Z.of_nat (length (runningPool tp))) (Z.max (concurrency tp) 0))%Z
  ∧ concurrency (on_fulfilled p d v tp).1.1 = concurrency tp.
Proof.
  unfold on_fulfilled, call_executor. destruct d; simpl; [lia|].
  destruct (notify_each _) as [f|]; [destruct (f _ _ _ _)|]; simpl; try lia.
  all: match goal with |- context [executorFn ?x] =>
         destruct (executorFn_running x) as [H1 H2];
         destruct (executorFn x) as [tp4 ev2] end; simpl in *;
       match goal with H : context [drop_proxy ?s ?l] |- _ =>
         pose proof (length_drop_proxy s l) end; lia.
Qed.

Lemma on_rejected_running p d e tp :
  (Z.of_nat (length (runningPool (on_rejected p d e tp).1.1))
   ≤ Z.max (Z.of_nat (length (runningPool tp))) (Z.max (concurrency tp) 0))%Z
  ∧ concurrency (on_rejected p d e tp).1.1 = concurrency tp.
Proof.
  unfold on_rejected, call_executor. destruct d; simpl; [lia|].
  pose proof (length_drop_proxy (p_seq p) (runningPool tp)).
  destruct (notify_each _) as [f|]; [destruct (f _ _ _ _)|]; simpl; try lia.
  all: match goal with |- context [executorFn ?x] =>
         destruct (executorFn_running x) as [H1 H2];
         destruct (executorFn x) as [tp4 ev2] end; simpl in *; lia.
Qed.

(** No transition grows [runningPool] beyond the bound in force after it. *)
Lemma step_running op tp :
  (Z.of_nat (length (runningPool (step op tp).1))
   ≤ Z.max (Z.of_nat (length (runningPool tp))) (Z.max (concurrency (step op tp).1) 0))%Z
  ∧ concurrency (step op tp).1 = next_concurrency op (concurrency tp).
Proof.
  destruct op as [task|seq| | | |n| | |b|b|pid o|pid|pid]; simpl;
    try (split; [lia|reflexivity]).
  - (* addTask *)
    unfold addTask.
    set (tws := match task with Many ts => _ | One t => _ end).
    simpl. destruct (autoSchedule tp); simpl; [|lia].
    destruct (isRunning tp).
    + match goal with |- context [executorFn ?x] =>
        destruct (executorFn_running x) as [H1 H2]; rewrite H2; simpl in *; lia end.
    + match goal with |- context [start ?x] =>
        destruct (start_running x) as [H1 H2]; rewrite H2; simpl in *; lia end.
  - (* deleteTask *)
    unfold deleteTask.
    destruct (find_proxy seq (runningPool tp)) as [rt|].
    + match goal with |- context [executorFn ?x] =>
        destruct (executorFn_running x) as [H1 H2];
        destruct (executorFn x) as [tp4 ev2] end.
      simpl in *. pose proof (length_drop_proxy seq (runningPool tp)). lia.
    + destruct (find_task seq (restPool tp)) as [restTask|];
        [|destruct (find_task seq (allTasks tp)) as [doneTarget|]];
        match goal with |- context [executorFn ?x] =>
          destruct (executorFn_running x) as [H1 H2];
          destruct (executorFn x) as [tp4 ev2] end; simpl in *; lia.
  - (* start *) destruct (start_running tp) as [H1 H2]. rewrite H2. split; [lia|done].
  - (* resume *)
    unfold resume. destruct (paused tp); simpl; [|lia].
    destruct (isRunning tp); simpl.
    + destruct (executorFn_running (set_paused false tp)) as [H1 H2].
      rewrite H2. simpl in *. split; [lia|done].
    + destruct (start_running (set_paused false tp)) as [H1 H2].
      rewrite H2. simpl in *. split; [lia|done].
  - (* settle *)
    unfold settle. destruct (promises tp !! pid) as [c|]; simpl; [|lia].
    destruct (c_phase c); simpl; try lia.
    destruct o as [v|e].
    + destruct (on_fulfilled_running (c_proxy c) (c_deleted c) v tp) as [H1 H2].
      destruct (on_fulfilled _ _ _ tp) as [[tp1 ev] thrown]. simpl in *.
      rewrite H2. split; [lia|done].
    + destruct (on_rejected_running (c_proxy c) (c_deleted c) e tp) as [H1 H2].
      destruct (on_rejected _ _ _ tp) as [[tp1 ev] thrown]. simpl in *.
      rewrite H2. split; [lia|done].
  - (* catch *)
    unfold catch. destruct (promises tp !! pid) as [c|]; simpl; [|lia].
    destruct (c_phase c) as [|e| |]; simpl; try lia.
    destruct (on_rejected_running (c_proxy c) (c_deleted c) e tp) as [H1 H2].
    destruct (on_rejected _ _ _ tp) as [[tp1 ev] thrown]. simpl in *.
    rewrite H2. split; [lia|done].
  - (* finally *)
    unfold finally. destruct (promises tp !! pid) as [c|]; simpl; [|lia].
    destruct (c_phase c); simpl; try lia.
    unfold on_finally, drain_call, flush_chunk, call_executor, mark_phase. simpl.
    repeat (match goal with
            | |- context [if ?b then _ else _] => destruct b eqn:?
            | |- context [match ?b with Some _ => _ | None => _ end] => destruct b eqn:?
            | |- context [match ?b with SubmitReturns => _ | _ => _ end] => destruct b eqn:?
            | |- context [match ?b with ExecutorReturns => _ | _ => _ end] => destruct b eqn:?
            end; simpl); lia.
Qed.

Lemma run_cons op ops tp :
  run (op :: ops) tp =
    ((run ops (step op tp).1).1, (step op tp).2 ++ (run ops (step op tp).1).2).
Proof. simpl. destruct (step op tp) as [tp1 ev1]. simpl. by destruct (run ops tp1). Qed.

Lemma peak_ge c ops : (c ≤ peak c ops)%Z.
Proof.
  revert c; induction ops as [|op ops IH]; intros c; simpl; [lia|].
  destruct op; try apply IH. lia.
Qed.

Lemma peak_cons op ops c :
  (peak (next_concurrency op c) ops ≤ peak c (op :: ops))%Z.
Proof. destruct op; simpl; lia. Qed.

Lemma run_peak ops tp m :
  (Z.of_nat (length (runningPool tp)) ≤ Z.max m 0)%Z →
  (Z.of_nat (length (runningPool (run ops tp).1))
   ≤ Z.max (Z.max m (peak (concurrency tp) ops)) 0)%Z.
Proof.
  revert tp m; induction ops as [|op ops IH]; intros tp m Hm.
  - simpl. lia.
  - rewrite run_cons. cbn [fst].
    destruct (step_running op tp) as [Hlen Hc].
    pose proof (peak_cons op ops (concurrency tp)) as Hp.
    pose proof (peak_ge (next_concurrency op (concurrency tp)) ops) as Hg.
    specialize (IH (step op tp).1 (Z.max m (concurrency (step op tp).1))).
    rewrite Hc in *. lia.
Qed.

Lemma step_within_bound op tp :
  within_bound tp →
  (concurrency tp ≤ next_concurrency op (concurrency tp))%Z →
  within_bound (step op tp).1.
Proof.
  unfold within_bound. intros Hb Hle.
  destruct (step_running op tp) as [Hlen Hc]. rewrite Hc in *. lia.
Qed.

Lemma run_within_bound ops tp :
  within_bound tp →
  never_lowered (concurrency tp) ops = true →
  within_bound (run ops tp).1.
Proof.
  revert tp; induction ops as [|op ops IH]; intros tp Hb Hnl; [done|].
  rewrite run_cons. cbn [fst]. apply IH.
  - apply step_within_bound; [done|].
    destruct op; simpl in *; try lia.
    all: apply andb_prop in Hnl as [Hn _]; lia.
  - destruct (step_running op tp) as [_ ->].
    destruct op; simpl in *; try done.
    all: by apply andb_prop in Hnl as [_ Hn].
Qed.

(** C1 (as stated, refuted): with two tasks running under bound 2,
    [setConcurrency(1)] leaves both in [runningPool], so
    [|runningPool| = 2 > max(concurrency, 0) = 1]. *)
Lemma running_bound_lowered_counterexample :
  ¬ within_bound (run [Start; SetConcurrency 1] pool_two).1.
Proof. unfold within_bound. vm_compute. intros H. by apply H. Qed.

(** C1 (amended): at every state reachable from construction, [runningPool]
    is no longer than the largest concurrency bound in force so far (or 0);
    and as long as no [setConcurrency] lowered the bound,
    [|runningPool| ≤ max(concurrency, 0)]. *)
Theorem running_bound_reachable taskPool ex c mo im au sub ops :
  let tp := (run ops (new_TaskPool taskPool ex c mo im au sub)).1 in
  (Z.of_nat (length (runningPool tp)) ≤ Z.max (peak c ops) 0)%Z
  ∧ (never_lowered c ops = true → within_bound tp).
Proof.
  split.
  - pose proof (run_peak ops (new_TaskPool taskPool ex c mo im au sub) c) as H.
    pose proof (peak_ge c ops). simpl in H. lia.
  - intros Hnl. apply run_within_bound; [|done].
    unfold within_bound. simpl. lia.
Qed.

Lemma running_bound_reachable_witness :
  within_bound
    (run [Start; SetConcurrency 3; AddTask (One (add_task 3 3)); Settle 0 (Fulfilled 2)]
         (new_TaskPool [add_task 1 1; add_task 2 2] None 2 false false false None)).1.
Proof.
  apply (proj2 (running_bound_reachable [add_task 1 1; add_task 2 2] None 2
                  false false false None
                  [Start; SetConcurrency 3; AddTask (One (add_task 3 3));
                   Settle 0 (Fulfilled 2)])).
  reflexivity.
Defined.

(** ** Delivery order *)

Lemma insert_seq_perm r l : insert_seq r l ≡ₚ r :: l.
Proof.
  induction l as [|x l IH]; simpl; [done|].
  destruct (r_seq r <=? r_seq x); [done|]. by rewrite IH, Permutation_swap.
Qed.

Lemma sort_by_seq_perm l : sort_by_seq l ≡ₚ l.
Proof.
  induction l as [|r l IH]; simpl; [done|]. by rewrite insert_seq_perm, IH.
Qed.

Lemma insert_seq_sorted r l :
  Sorted seq_le l → Sorted seq_le (insert_seq r l).
Proof.
  unfold seq_le. induction 1 as [|x l Hs IH Hx]; simpl.
  - by repeat constructor.
  - destruct (Nat.leb_spec (r_seq r) (r_seq x)) as [Hle|Hgt].
    + constructor; [by constructor|by constructor].
    + constructor; [done|].
      destruct Hx as [|y l Hxy]; simpl.
      * constructor. lia.
      * destruct (r_seq r <=? r_seq y); constructor; lia.
Qed.

(** [sort((a, b) => a.seq - b.seq)] returns the records in ascending seq
    order. *)
Lemma sort_by_seq_sorted l : Sorted seq_le (sort_by_seq l).
Proof.
  induction l as [|r l IH]; simpl; [constructor|]. by apply insert_seq_sorted.
Qed.

(** The calls a [finally] callback can make: the drain-time call of the
    result callback and the call of [submit]. *)
Lemma on_finally_calls tp e :
  e ∈ (on_finally tp).2 →
  e = ExecutorCall (ordered tp (resultPool tp)) None None None
  ∨ e = SubmitCall (ordered tp (chunkResultPool tp)).
Proof.
  destruct tp.
  unfold on_finally, drain_call, flush_chunk, call_executor, notify_drain, ordered.
  cbn -[sort_by_seq].
  repeat (case_match; cbn -[sort_by_seq] in *; simplify_eq);
    intros He%list_elem_of_In; simpl in He;
    repeat (destruct He as [<-|He]; [auto|]); done.
Qed.

(** The drain-time calls do sort under [maintainOrder]. *)
Lemma on_finally_delivers_sorted tp e l :
  maintainOrder tp = true →
  e ∈ (on_finally tp).2 → delivered e = Some l → Sorted seq_le l.
Proof.
  intros Hmo [->| ->]%on_finally_calls [= <-]; unfold ordered; rewrite Hmo;
    apply sort_by_seq_sorted.
Qed.

(** C2 (violated by the code): with [maintainOrder = true] and
    [immediately = true], task 1 settles before task 0 and the second
    per-completion call of the result callback receives the records in
    settlement order, seq 1 before seq 0. *)
Theorem immediate_delivery_unsorted :
  maintainOrder pool_ordered_immediate = true
  ∧ (run [Start; Settle 1 (Fulfilled 4); Settle 0 (Fulfilled 2)]
         pool_ordered_immediate).2 =
      [BodyCall 0 0 [1; 1]%Z; BodyCall 1 0 [2; 2]%Z;
       ExecutorCall [mkResult 1 4 success] (Some 4%Z) (Some 1) None;
       ExecutorCall [mkResult 1 4 success; mkResult 0 2 success] (Some 2%Z) (Some 0) None]
  ∧ ascending_seq [mkResult 1 4 success; mkResult 0 2 success] = false.
Proof. by vm_compute. Qed.

(** ** [setImmediately] *)

(** No transition reads the field [immediately]: writing it changes no call
    and no other field. *)
Lemma step_set_immediately b op tp :
  step op (set_immediately b tp) =
    (set_immediately (next_immediately op b) (step op tp).1, (step op tp).2).
Proof.
  destruct tp. destruct op as [task|seq| | | |n| | |b'|b'|pid o|pid|pid]; try reflexivity.
  all: pool_unfold; repeat (case_match; pool_simpl; simplify_eq; try reflexivity).
Qed.

Lemma run_set_immediately b ops tp :
  (run ops (set_immediately b tp)).2 = (run ops tp).2.
Proof.
  revert b tp; induction ops as [|op ops IH]; intros b tp; [done|].
  rewrite !run_cons, step_set_immediately. cbn [fst snd]. by rewrite IH.
Qed.

(** C3 (violated by the code): the settlement callbacks test the constructor
    parameter, not the field that [setImmediately] writes, so in every state
    and for every continuation a call of [setImmediately] changes none of the
    calls the pool makes.  A pool built with [immediately = false] still
    defers the result callback to the drain after [setImmediately(true)]: the
    settlement of task 0 makes no call, the [finally] callback makes the
    single drain-time call. *)
Theorem setImmediately_not_observed :
  (∀ b ops tp, (run (SetImmediately b :: ops) tp).2 = (run ops tp).2)
  ∧ immediately (run [SetImmediately true] pool_deferred).1 = true
  ∧ (run [SetImmediately true; Start; Settle 0 (Fulfilled 2)] pool_deferred).2 =
      [BodyCall 0 0 [1; 1]%Z]
  ∧ (run [SetImmediately true; Start; Settle 0 (Fulfilled 2); Finally 0] pool_deferred).2 =
      [BodyCall 0 0 [1; 1]%Z; ExecutorCall [mkResult 0 2 success] None None None].
Proof.
  split; [|by vm_compute].
  intros b ops tp. rewrite run_cons. cbn [step fst snd].
  unfold setImmediately. by rewrite run_set_immediately.
Qed.

(** ** [start] *)

(** The guard of [start]. *)
Lemma start_when_running tp : isRunning tp = true → start tp = (tp, []).
Proof. intros H. unfold start. by rewrite H. Qed.

Lemma start_when_idle tp :
  isRunning tp = false → start tp = executorFn (set_isRunning true tp).
Proof. intros H. unfold start. by rewrite H. Qed.

(** [isRunning] is set by [start] and cleared by [stop], [reset] and the
    [finally] callback only. *)
Lemma step_keeps_running op tp :
  isRunning tp = true →
  match op with Stop | Reset | Finally _ => False | _ => True end →
  isRunning (step op tp).1 = true.
Proof.
  destruct tp. simpl. intros -> Hop.
  destruct op as [task|seq| | | |n| | |b'|b'|q o|q|q]; try done.
  all: pool_unfold; pool_cases; done.
Qed.

(** C6 (violated by the code): [start()] on a pool without tasks sets
    [isRunning] and nothing clears it, although the pool is drained; with
    [autoSchedule] off, a task added afterwards is never dispatched, because
    the later [start()] returns at its guard. *)
Theorem start_on_empty_pool_sticks :
  let tp1 := (run [Start] pool_empty).1 in
  let r := run [Start; SetAutoSchedule false; AddTask (One (add_task 1 1)); Start] pool_empty in
  restPool tp1 = [] ∧ runningPool tp1 = [] ∧ isRunning tp1 = true
  ∧ start tp1 = (tp1, [])
  ∧ r.2 = [] ∧ waiting (getStatus r.1) = 1 ∧ running (getStatus r.1) = 0
  ∧ isRunning r.1 = true.
Proof. by vm_compute. Qed.

(** ** Pause *)

Lemma no_body_call_app (ev1 ev2 : list Event) :
  filter is_body_call ev1 = [] → filter is_body_call ev2 = [] →
  filter is_body_call (ev1 ++ ev2) = [].
Proof. intros H1 H2. by rewrite filter_app, H1, H2. Qed.

(** Under pause, a transition other than [resume], [stop] and [reset] calls
    no body, keeps the pause flag, and does not grow [runningPool]. *)
Lemma step_paused op tp :
  paused tp = true → keeps_pause op = true →
  paused (step op tp).1 = true
  ∧ filter is_body_call (step op tp).2 = []
  ∧ length (runningPool (step op tp).1) ≤ length (runningPool tp)
  ∧ (keeps_queue op = true → restPool (step op tp).1 = restPool tp).
Proof.
  intros Hp Hk. destruct tp. simpl in Hp. subst.
  destruct op as [task|seq| | | |n| | |b'|b'|pid o|pid|pid]; try done;
    try (simpl; split_and!; by auto).
  all: pool_unfold; pool_cases; split_and!; try done; try apply length_filter; try lia.
Qed.

Lemma run_paused ops tp :
  paused tp = true → forallb keeps_pause ops = true →
  paused (run ops tp).1 = true
  ∧ filter is_body_call (run ops tp).2 = []
  ∧ length (runningPool (run ops tp).1) ≤ length (runningPool tp)
  ∧ (forallb keeps_queue ops = true → restPool (run ops tp).1 = restPool tp).
Proof.
  revert tp; induction ops as [|op ops IH]; intros tp Hp Hk.
  - simpl. by split_and!.
  - simpl in Hk. apply andb_prop in Hk as [Hop Hk].
    destruct (step_paused op tp Hp Hop) as (Hp1 & Hev1 & Hlen1 & Hq1).
    destruct (IH _ Hp1 Hk) as (Hp2 & Hev2 & Hlen2 & Hq2).
    rewrite run_cons. cbn [fst snd]. split_and!.
    + done.
    + by apply no_body_call_app.
    + lia.
    + intros Hq. simpl in Hq. apply andb_prop in Hq as [Hqop Hq].
      by rewrite Hq2, Hq1.
Qed.

(** C4 (as stated, refuted): with three waiting tasks and [concurrency = 2],
    [start()] has called two bodies before [pause()] runs. *)
Lemma pause_after_start_counterexample :
  ¬ pause_after_start_holds_all pool_three.
Proof. unfold pause_after_start_holds_all. vm_compute. by intros [H _]. Qed.

(** C4 (amended): [start()] on an idle, unpaused pool with [N] waiting tasks
    and an empty [runningPool] dispatches the first
    [k = min(N, max(concurrency, 0))] of them at once, so [pause()] right
    after it finds [running = k] and [waiting = N - k]; from then on, until
    [resume()], [stop()] or [reset()], no further body is called, the pool
    stays paused, [running] never exceeds [k], and [waiting] stays [N - k] as
    long as no task is added or deleted. *)
Theorem pause_after_start tp ops :
  isRunning tp = false → paused tp = false → runningPool tp = [] →
  let N := length (restPool tp) in
  let k := N `min` Z.to_nat (concurrency tp) in
  let r := run [Start; Pause] tp in
  r.2 = body_call <$> proxies_from (length (promises tp)) (take k (restPool tp))
  ∧ running (getStatus r.1) = k
  ∧ waiting (getStatus r.1) = N - k
  ∧ (forallb keeps_pause ops = true →
     let r' := run ops r.1 in
     filter is_body_call r'.2 = []
     ∧ isPaused r'.1 = true
     ∧ running (getStatus r'.1) ≤ k
     ∧ (forallb keeps_queue ops = true → waiting (getStatus r'.1) = N - k)).
Proof.
  intros Hrun Hp Hrp N k r.
  assert (Hr : r = (pause (start tp).1, (start tp).2 ++ [])).
  { subst r. rewrite run_cons. cbn [fst snd]. by rewrite run_cons. }
  assert (Hst : start tp =
    (set_promises (promises tp ++ (fresh_closure <$>
         proxies_from (length (promises tp)) (take k (restPool tp))))
       (set_runningPool (proxies_from (length (promises tp)) (take k (restPool tp)))
          (set_restPool (drop k (restPool tp)) (set_isRunning true tp))),
     body_call <$> proxies_from (length (promises tp)) (take k (restPool tp)))).
  { unfold start. rewrite Hrun, executorFn_eq. simpl. rewrite Hp, Hrp. simpl.
    unfold free_slots. simpl. rewrite Z.sub_0_r. done. }
  rewrite Hst in Hr. cbn [fst snd] in Hr. rewrite app_nil_r in Hr.
  assert (Hk : length (runningPool r.1) = k).
  { rewrite Hr. simpl. rewrite length_proxies_from, length_take. subst N k. lia. }
  assert (Hw : length (restPool r.1) = N - k).
  { rewrite Hr. simpl. by rewrite length_drop. }
  split_and!.
  - by rewrite Hr.
  - done.
  - done.
  - intros Hops r'.
    assert (Hpr : paused r.1 = true) by (by rewrite Hr).
    destruct (run_paused ops r.1 Hpr Hops) as (H1 & H2 & H3 & H4).
    split_and!; [done|done| |].
    + change (length (runningPool (run ops r.1).1) ≤ k). by rewrite <- Hk.
    + intros Hq. change (length (restPool (run ops r.1).1) = N - k).
      by rewrite (H4 Hq).
Qed.

Lemma pause_after_start_witness :
  let r := run [Start; Pause] pool_three in
  let r' := run [Settle 0 (Fulfilled 2); Finally 0; SetConcurrency 5; Start] r.1 in
  r.2 = [BodyCall 0 0 [1; 1]%Z; BodyCall 1 0 [2; 2]%Z]
  ∧ running (getStatus r.1) = 2
  ∧ waiting (getStatus r.1) = 1
  ∧ filter is_body_call r'.2 = []
  ∧ isPaused r'.1 = true
  ∧ running (getStatus r'.1) ≤ 2
  ∧ waiting (getStatus r'.1) = 1.
Proof.
  destruct (pause_after_start pool_three
              [Settle 0 (Fulfilled 2); Finally 0; SetConcurrency 5; Start]
              eq_refl eq_refl eq_refl) as (H1 & H2 & H3 & H4).
  destruct (H4 eq_refl) as (H5 & H6 & H7 & H8).
  specialize (H8 eq_refl).
  split_and!; assumption.
Defined.

(** ** The [finally] callback *)

(** The [finally] callback of any chain, in any state: it appends no record,
    makes no per-completion call, and leaves [index], [concurrency],
    [allTasks], [runningPool], [restPool] and [paused] alone; unless the pool
    is drained it changes nothing but the phase of its chain and calls
    nothing. *)
Lemma finally_frame pid tp :
  let r := finally pid tp in
  (drained tp = false → r.2 = [] ∧ set_promises (promises tp) r.1 = tp)
  ∧ filter is_completion_call r.2 = []
  ∧ (resultPool r.1 = resultPool tp ∨ resultPool r.1 = sort_by_seq (resultPool tp))
  ∧ (chunkResultPool r.1 = chunkResultPool tp
     ∨ chunkResultPool r.1 = sort_by_seq (chunkResultPool tp)
     ∨ chunkResultPool r.1 = [])
  ∧ index r.1 = index tp ∧ concurrency r.1 = concurrency tp
  ∧ allTasks r.1 = allTasks tp ∧ runningPool r.1 = runningPool tp
  ∧ restPool r.1 = restPool tp ∧ paused r.1 = paused tp.
Proof.
  destruct tp.
  unfold finally, drained, on_finally, drain_call, flush_chunk, call_executor,
    notify_drain, mark_phase, ordered.
  cbn -[filter lookup insert sort_by_seq].
  repeat (case_match; cbn -[filter lookup insert sort_by_seq] in *; simplify_eq);
    split_and!; auto; try done.
Qed.

(** ** Deleting a running task *)

Lemma chain_deleted_app pid P Q : chain_deleted pid P → chain_deleted pid (P ++ Q).
Proof.
  unfold chain_deleted. intros H.
  destruct (P !! pid) as [c|] eqn:E; [|done].
  by rewrite (lookup_app_l_Some _ _ _ _ E).
Qed.

Lemma chain_deleted_insert pid q P c c' :
  P !! q = Some c →
  c_deleted c' = c_deleted c →
  chain_deleted pid P →
  chain_deleted pid (<[q := c']> P).
Proof.
  unfold chain_deleted. intros Hq Hc H.
  destruct (decide (q = pid)) as [->|Hne].
  - rewrite list_lookup_insert_eq by (by eapply lookup_lt_Some).
    rewrite Hq in H. simpl in *. by rewrite Hc.
  - by rewrite list_lookup_insert_ne.
Qed.

Lemma chain_deleted_mark pid q P :
  chain_deleted pid P → chain_deleted pid (mark_deleted q P).
Proof.
  unfold chain_deleted, mark_deleted. intros H.
  destruct (P !! q) as [c|] eqn:Hq; [|done].
  destruct (decide (q = pid)) as [->|Hne].
  - by rewrite list_lookup_insert_eq by (by eapply lookup_lt_Some).
  - by rewrite list_lookup_insert_ne.
Qed.

Lemma chain_deleted_fill pid c rest rp P r rp' P' ev :
  fill c rest rp P = (r, rp', P', ev) →
  chain_deleted pid P → chain_deleted pid P'.
Proof. rewrite fill_eq. intros [= <- <- <- <-]. apply chain_deleted_app. Qed.

Ltac solve_chain_deleted :=
  simpl;
  repeat first
    [ assumption
    | apply chain_deleted_app
    | apply chain_deleted_mark
    | eapply chain_deleted_fill; [eassumption|]
    | eapply chain_deleted_insert; [eassumption|simpl; congruence|] ].

(** The [deleted] flag of a proxy is never cleared. *)
Lemma step_chain_deleted pid op tp :
  chain_deleted pid (promises tp) → chain_deleted pid (promises (step op tp).1).
Proof.
  destruct tp. simpl. intros Hd.
  destruct op as [task|seq| | | |n| | |b'|b'|q o|q|q]; try done.
  all: pool_unfold; pool_cases; fill_commute; solve_chain_deleted.
Qed.

Lemma run_chain_deleted pid ops tp :
  chain_deleted pid (promises tp) → chain_deleted pid (promises (run ops tp).1).
Proof.
  revert tp; induction ops as [|op ops IH]; intros tp Hd; [done|].
  rewrite run_cons. cbn [fst]. by apply IH, step_chain_deleted.
Qed.

(** The settlement of a deleted proxy: nothing but the phase of the chain
    changes, nothing is called. *)
Lemma settle_deleted pid o tp :
  chain_deleted pid (promises tp) →
  resultPool (settle pid o tp).1 = resultPool tp
  ∧ chunkResultPool (settle pid o tp).1 = chunkResultPool tp
  ∧ (settle pid o tp).2 = [].
Proof.
  unfold chain_deleted, settle. intros Hd.
  destruct (promises tp !! pid) as [c|]; [|done]. simpl in Hd.
  injection Hd as Hd.
  destruct (c_phase c); [|done..].
  destruct o; unfold on_fulfilled, on_rejected; by rewrite Hd.
Qed.

(** So is the [catch] callback of a deleted proxy whose [then] callback
    threw before the deletion. *)
Lemma catch_deleted pid tp :
  chain_deleted pid (promises tp) →
  resultPool (catch pid tp).1 = resultPool tp
  ∧ chunkResultPool (catch pid tp).1 = chunkResultPool tp
  ∧ (catch pid tp).2 = [].
Proof.
  unfold chain_deleted, catch. intros Hd.
  destruct (promises tp !! pid) as [c|]; [|done]. simpl in Hd.
  injection Hd as Hd.
  destruct (c_phase c); try done.
  unfold on_rejected; by rewrite Hd.
Qed.

Lemma deleteTask_running_eq tp seq p :
  find_proxy seq (runningPool tp) = Some p →
  deleteTask seq tp =
    executorFn
      (set_allTasks (drop_task seq (allTasks tp))
         (set_runningPool (drop_proxy seq (runningPool tp))
            (set_promises (mark_deleted (p_id p) (promises tp)) tp))).
Proof.
  intros Hf. unfold deleteTask. rewrite Hf. simpl.
  by destruct (executorFn _) as [tp4 ev2].
Qed.

Lemma length_mark_deleted q P : length (mark_deleted q P) = length P.
Proof. unfold mark_deleted. destruct (P !! q); [|done]. by rewrite length_insert. Qed.

(** C5 (as stated, refuted): in [pool_lowered] tasks 0 and 1 run, task 2
    waits and the bound is 1.  [deleteTask(0)] calls nothing at all: the
    cleanup callback of task 0 is not called, and task 2 is not promoted,
    because one task still runs under bound 1. *)
Lemma delete_running_counterexample :
  ¬ delete_running_as_specified pool_lowered 0.
Proof.
  intros H.
  destruct (H (mkProxy 0 0 [1; 1]%Z 0) (mkSeqTask (guarded_task 1) 0) eq_refl eq_refl)
    as (_ & _ & Hpromote).
  assert (Hlt : length (restPool (deleteTask 0 pool_lowered).1)
                < length (restPool pool_lowered)) by (by apply Hpromote).
  vm_compute in Hlt. lia.
Qed.

(** What [deleteTask(0)] does in [pool_lowered]. *)
Lemma delete_running_lowered_trace :
  (deleteTask 0 pool_lowered).2 = []
  ∧ waiting (getStatus (deleteTask 0 pool_lowered).1) = 1
  ∧ running (getStatus (deleteTask 0 pool_lowered).1) = 1.
Proof. by vm_compute. Qed.

(** C5 (amended): [deleteTask(seq)] on a running task marks its proxy
    deleted.  Whatever happens afterwards, the [then] and [catch] callbacks
    of that proxy add no record to [resultPool] or [chunkResultPool] and call
    nothing; its [finally] callback adds no record either and makes no
    per-completion call: while a task waits or runs it calls nothing, at
    drain it makes the drain-time calls like the [finally] callback of any
    other chain.  And when the pool is not paused, [restPool] is non-empty
    and the remaining running tasks are fewer than [concurrency], the head of
    [restPool] is promoted: its body is called and its proxy joins
    [runningPool]. *)
Theorem deleteTask_running tp seq p c :
  find_proxy seq (runningPool tp) = Some p →
  promises tp !! p_id p = Some c →
  let r := deleteTask seq tp in
  chain_deleted (p_id p) (promises r.1)
  ∧ (∀ ops o,
       let tp1 := (run ops r.1).1 in
       let s := settle (p_id p) o tp1 in
       let k := catch (p_id p) tp1 in
       let f := finally (p_id p) tp1 in
       (resultPool s.1 = resultPool tp1
        ∧ chunkResultPool s.1 = chunkResultPool tp1
        ∧ s.2 = [])
       ∧ (resultPool k.1 = resultPool tp1
          ∧ chunkResultPool k.1 = chunkResultPool tp1
          ∧ k.2 = [])
       ∧ (resultPool f.1 = resultPool tp1 ∨ resultPool f.1 = sort_by_seq (resultPool tp1))
       ∧ (chunkResultPool f.1 = chunkResultPool tp1
          ∨ chunkResultPool f.1 = sort_by_seq (chunkResultPool tp1)
          ∨ chunkResultPool f.1 = [])
       ∧ filter is_completion_call f.2 = []
       ∧ (drained tp1 = false → f.2 = []))
  ∧ (paused tp = false →
     ∀ t rest, restPool tp = t :: rest →
     (Z.of_nat (length (drop_proxy seq (runningPool tp))) < concurrency tp)%Z →
     let q := mkProxy (length (promises tp)) (body (t_task t)) (args (t_task t))
                      (t_seq t) in
     body_call q ∈ r.2
     ∧ q ∈ runningPool r.1
     ∧ length (restPool r.1) < length (restPool tp)).
Proof.
  intros Hf Hc r.
  assert (Hd : chain_deleted (p_id p) (promises r.1)).
  { subst r. rewrite (deleteTask_running_eq _ _ _ Hf), executorFn_eq. simpl.
    assert (chain_deleted (p_id p) (mark_deleted (p_id p) (promises tp))).
    { unfold chain_deleted, mark_deleted. rewrite Hc.
      by rewrite list_lookup_insert_eq by (by eapply lookup_lt_Some). }
    destruct (paused tp); simpl; [done|]. by apply chain_deleted_app. }
  split_and!.
  - done.
  - intros ops o tp1 s k f.
    assert (Hd1 : chain_deleted (p_id p) (promises tp1)) by by apply run_chain_deleted.
    destruct (finally_frame (p_id p) tp1) as (H1 & H2 & H3 & H4 & _).
    refine (conj (settle_deleted _ o _ Hd1)
              (conj (catch_deleted _ _ Hd1) (conj H3 (conj H4 (conj H2 _))))).
    intros Hdr. by destruct (H1 Hdr).
  - intros Hp t rest Hrest Hlt q. subst r.
    rewrite (deleteTask_running_eq _ _ _ Hf), executorFn_eq. simpl.
    rewrite Hp, Hrest, length_mark_deleted. simpl.
    unfold free_slots. simpl length.
    destruct (Z.to_nat (concurrency tp - Z.of_nat (length (drop_proxy seq (runningPool tp)))))
      as [|n] eqn:En; [lia|].
    simpl. fold q. split_and!.
    + apply list_elem_of_here.
    + apply elem_of_app. right. apply list_elem_of_here.
    + rewrite length_drop. lia.
Qed.

Lemma deleteTask_running_witness :
  let tp := (run [Start] pool_three).1 in
  let r := deleteTask 0 tp in
  chain_deleted 0 (promises r.1)
  ∧ resultPool (settle 0 (Fulfilled 2) (run [Pause] r.1).1).1 = []
  ∧ BodyCall 2 0 [3; 3]%Z ∈ r.2.
Proof.
  destruct (deleteTask_running (run [Start] pool_three).1 0
              (mkProxy 0 0 [1; 1]%Z 0)
              (mkClosure (mkProxy 0 0 [1; 1]%Z 0) false Pending)
              eq_refl eq_refl) as (H1 & H2 & H3).
  destruct (H2 [Pause] (Fulfilled 2)) as ((H4 & _ & _) & _).
  destruct (H3 eq_refl (mkSeqTask (add_task 3 3) 2) [] eq_refl) as (H5 & _ & _).
  { vm_compute. reflexivity. }
  split_and!; [exact H1|exact H4|exact H5].
Defined.

(** ** Drain and auto-submit *)

Lemma drained_spec tp : drained tp = true ↔ restPool tp = [] ∧ runningPool tp = [].
Proof.
  unfold drained. rewrite andb_true_iff, !Nat.eqb_eq.
  destruct (restPool tp), (runningPool tp); simpl; split; intros [??]; done.
Qed.

Lemma finally_settled pid c tp :
  promises tp !! pid = Some c → c_phase c = Settled →
  finally pid tp = on_finally (mark_phase pid c Finished tp).
Proof. intros H1 H2. unfold finally. by rewrite H1, H2. Qed.


(** What the drain does when [submit] throws: the chunk is handed over, kept,
    and [isRunning] is not reset. *)
Lemma drain_submit_throws_trace :
  (finally 0 pool_submit_throws).2 = [SubmitCall [mkResult 0 2 success]]
  ∧ chunkResultPool (finally 0 pool_submit_throws).1 = [mkResult 0 2 success]
  ∧ isRunning (finally 0 pool_submit_throws).1 = true.
Proof. by vm_compute. Qed.

(** What the drain does when the drain-time call of the result callback
    throws: [submit] is not called, the chunk is kept, and [isRunning] is not
    reset. *)
Lemma drain_executor_throws_trace :
  (finally 0 pool_drain_throws).2 = [ExecutorCall [mkResult 0 2 success] None None None]
  ∧ chunkResultPool (finally 0 pool_drain_throws).1 = [mkResult 0 2 success]
  ∧ isRunning (finally 0 pool_drain_throws).1 = true.
Proof. by vm_compute. Qed.



(** ** Settlement of a deleted proxy *)

(** C8 (as stated, refuted): in [pool_last_deleted] the deleted task 1 is the
    last to settle; its [finally] callback finds the pool drained, calls the
    result callback with the record of task 0 and resets [isRunning]. *)
Lemma deleted_settlement_counterexample :
  ¬ deleted_settlement_inert pool_last_deleted 1 (Fulfilled 4).
Proof.
  unfold deleted_settlement_inert. intros [Hev _].
  vm_compute in Hev. discriminate.
Qed.

(** What the two callbacks of the deleted chain do in [pool_last_deleted]. *)
Lemma deleted_settlement_trace :
  c_deleted <$> promises pool_last_deleted !! 1 = Some true
  ∧ isRunning pool_last_deleted = true
  ∧ (run [Settle 1 (Fulfilled 4)] pool_last_deleted).2 = []
  ∧ (run [Settle 1 (Fulfilled 4); Finally 1] pool_last_deleted).2 =
      [ExecutorCall [mkResult 0 2 success] None None None]
  ∧ isRunning (run [Settle 1 (Fulfilled 4); Finally 1] pool_last_deleted).1 = false.
Proof. by vm_compute. Qed.

(** C8 (amended): when a proxy marked deleted settles, its [then]/[catch]
    callback changes nothing and calls nothing.  Its [finally] callback,
    whenever it runs, still evaluates the drain: while a task waits or runs it
    changes nothing and calls nothing; at drain it may make the drain-time
    calls (result callback without current result, submit), reorder
    [resultPool], flush the chunk and reset [isRunning].  Neither callback
    appends a record, makes a per-completion call, or touches [index],
    [concurrency], [allTasks], [runningPool], [restPool] or [paused]. *)
Theorem deleted_settlement tp pid c o :
  promises tp !! pid = Some c → c_phase c = Pending → c_deleted c = true →
  settle pid o tp = (mark_phase pid c Settled tp, [])
  ∧ ∀ tp2,
      let r := finally pid tp2 in
      (drained tp2 = false → r.2 = [] ∧ set_promises (promises tp2) r.1 = tp2)
      ∧ filter is_completion_call r.2 = []
      ∧ (resultPool r.1 = resultPool tp2 ∨ resultPool r.1 = sort_by_seq (resultPool tp2))
      ∧ (chunkResultPool r.1 = chunkResultPool tp2
         ∨ chunkResultPool r.1 = sort_by_seq (chunkResultPool tp2)
         ∨ chunkResultPool r.1 = [])
      ∧ index r.1 = index tp2 ∧ concurrency r.1 = concurrency tp2
      ∧ allTasks r.1 = allTasks tp2 ∧ runningPool r.1 = runningPool tp2
      ∧ restPool r.1 = restPool tp2 ∧ paused r.1 = paused tp2.
Proof.
  intros Hc Hph Hdel. split.
  - unfold settle. rewrite Hc, Hph.
    destruct o; unfold on_fulfilled, on_rejected; by rewrite Hdel.
  - intros tp2. apply finally_frame.
Qed.

Lemma deleted_settlement_witness :
  settle 1 (Fulfilled 4) pool_last_deleted =
    (mark_phase 1 (mkClosure (mkProxy 1 0 [2; 2]%Z 1) true Pending) Settled
       pool_last_deleted, []).
Proof.
  exact (proj1 (deleted_settlement pool_last_deleted 1
                  (mkClosure (mkProxy 1 0 [2; 2]%Z 1) true Pending) (Fulfilled 4)
                  eq_refl eq_refl eq_refl)).
Defined.

(** ** [stop] and tasks in flight *)

Lemma proxies_from_id i ts p : p ∈ proxies_from i ts → i ≤ p_id p.
Proof.
  revert i; induction ts as [|t ts IH]; intros i; simpl.
  - by intros ?%elem_of_nil.
  - intros [->|H]%elem_of_cons; simpl; [lia|]. apply IH in H. lia.
Qed.

Lemma abandoned_fill pid c0 c rest rp P r rp' P' ev :
  fill c rest rp P = (r, rp', P', ev) →
  abandoned pid c0 P rp → abandoned pid c0 P' rp'.
Proof.
  rewrite fill_eq. intros [= <- <- <- <-] [Hl Hrp]. split.
  - by apply lookup_app_l_Some.
  - intros p [Hp|Hp]%elem_of_app; [by apply Hrp|].
    apply proxies_from_id in Hp. apply lookup_lt_Some in Hl. lia.
Qed.

Lemma abandoned_drop pid c0 P rp seq :
  abandoned pid c0 P rp → abandoned pid c0 P (drop_proxy seq rp).
Proof.
  intros [Hl Hrp]. split; [done|].
  intros p [_ Hp]%list_elem_of_filter. by apply Hrp.
Qed.

Lemma abandoned_nil pid c0 P rp : abandoned pid c0 P rp → abandoned pid c0 P [].
Proof. intros [Hl _]. split; [done|]. by intros p ?%elem_of_nil. Qed.

Lemma abandoned_insert pid c0 P rp q x :
  q ≠ pid → abandoned pid c0 P rp → abandoned pid c0 (<[q := x]> P) rp.
Proof. intros Hne [Hl Hrp]. split; [|done]. by rewrite list_lookup_insert_ne. Qed.

Lemma find_proxy_Some seq rp p :
  find_proxy seq rp = Some p → p ∈ rp ∧ p_seq p = seq.
Proof.
  unfold find_proxy. destruct (list_find _ rp) as [[i x]|] eqn:E; [|done].
  simpl. intros [= ->]. apply list_find_Some in E as (Hi & Hs & _).
  split; [|done]. by eapply list_elem_of_lookup_2.
Qed.

Lemma abandoned_mark pid c0 P rp p :
  p ∈ rp → abandoned pid c0 P rp → abandoned pid c0 (mark_deleted (p_id p) P) rp.
Proof.
  intros Hp [Hl Hrp]. unfold mark_deleted.
  destruct (P !! p_id p); [|done]. apply abandoned_insert; [by apply Hrp|done].
Qed.

Ltac solve_abandoned :=
  simpl;
  repeat first
    [ assumption
    | eapply abandoned_fill; [eassumption|]
    | apply abandoned_drop
    | apply abandoned_mark; [by eapply find_proxy_Some|]
    | apply abandoned_insert; [congruence|]
    | eapply abandoned_nil; eassumption ].

(** A chain that no proxy of [runningPool] refers to stays as it is until its
    own body settles. *)
Lemma step_abandoned pid c op tp :
  c_phase c = Pending →
  is_settle_of pid op = false →
  abandoned pid c (promises tp) (runningPool tp) →
  abandoned pid c (promises (step op tp).1) (runningPool (step op tp).1).
Proof.
  intros Hph Hop. destruct tp. simpl. intros Hab.
  assert (Hl := proj1 Hab).
  destruct op as [task|seq| | | |n| | |b'|b'|q o|q|q]; try done.
  all: pool_unfold; pool_cases; try (apply Nat.eqb_neq in Hop); solve_abandoned.
Qed.

Lemma run_abandoned pid c ops tp :
  c_phase c = Pending →
  forallb (λ op, negb (is_settle_of pid op)) ops = true →
  abandoned pid c (promises tp) (runningPool tp) →
  abandoned pid c (promises (run ops tp).1) (runningPool (run ops tp).1).
Proof.
  intros Hph. revert tp; induction ops as [|op ops IH]; intros tp Hops Hab; [done|].
  simpl in Hops. apply andb_prop in Hops as [Hop Hops].
  rewrite run_cons. cbn [fst]. apply IH; [done|].
  apply step_abandoned; [done| |done]. by destruct (is_settle_of pid op).
Qed.

(** The constructor parameters captured by the callbacks never change. *)
Lemma step_options op tp :
  opt_immediately (step op tp).1 = opt_immediately tp
  ∧ executor (step op tp).1 = executor tp.
Proof.
  destruct tp. destruct op as [task|seq| | | |n| | |b'|b'|q o|q|q]; try done.
  all: pool_unfold; pool_cases; done.
Qed.

Lemma run_options ops tp :
  opt_immediately (run ops tp).1 = opt_immediately tp
  ∧ executor (run ops tp).1 = executor tp.
Proof.
  revert tp; induction ops as [|op ops IH]; intros tp; [done|].
  rewrite run_cons. cbn [fst].
  destruct (IH (step op tp).1) as [-> ->]. apply step_options.
Qed.

(** The settlement of a chain whose proxy is not marked deleted. *)
Lemma settle_live pid c o tp :
  promises tp !! pid = Some c → c_phase c = Pending → c_deleted c = false →
  resultPool (settle pid o tp).1 = resultPool tp ++ [outcome_record (p_seq (c_proxy c)) o]
  ∧ chunkResultPool (settle pid o tp).1 =
      chunkResultPool tp ++ [outcome_record (p_seq (c_proxy c)) o]
  ∧ (opt_immediately tp = true → is_Some (executor tp) →
     completion_call (resultPool tp ++ [outcome_record (p_seq (c_proxy c)) o])
                     (p_seq (c_proxy c)) o ∈ (settle pid o tp).2).
Proof.
  intros Hc Hph Hdel. destruct tp. simpl in *.
  unfold settle. cbn [promises]. rewrite Hc, Hph, Hdel.
  destruct o as [v|e]; pool_unfold; pool_cases;
    (split_and!; [done|done|]); intros ? [? ?]; simplify_eq; apply list_elem_of_here.
Qed.

Lemma lookup_proxies_from Q ts p :
  p ∈ proxies_from (length Q) ts →
  (Q ++ (fresh_closure <$> proxies_from (length Q) ts)) !! p_id p = Some (fresh_closure p).
Proof.
  revert Q; induction ts as [|t ts IH]; intros Q; simpl.
  - by intros ?%elem_of_nil.
  - intros [->|H]%elem_of_cons.
    + simpl. by rewrite list_lookup_middle.
    + specialize (IH (Q ++ [fresh_closure
                       (mkProxy (length Q) (body (t_task t)) (args (t_task t)) (t_seq t))])).
      rewrite length_app in IH. simpl in IH.
      replace (length Q + 1) with (S (length Q)) in IH by lia.
      rewrite <- app_assoc in IH. by apply IH.
Qed.

(** *** Proxies in [runningPool] and their chains *)

Lemma tracked_fill c rest rp P r rp' P' ev :
  fill c rest rp P = (r, rp', P', ev) → tracked P rp → tracked P' rp'.
Proof.
  rewrite fill_eq. intros [= <- <- <- <-] Hl p [Hp|Hp]%elem_of_app.
  - destruct (Hl _ Hp) as (ph & H1 & H2). exists ph. split; [|done].
    by apply lookup_app_l_Some.
  - exists Pending. split; [|done]. by apply lookup_proxies_from.
Qed.

Lemma tracked_drop P rp seq : tracked P rp → tracked P (drop_proxy seq rp).
Proof. intros Hl p [_ Hp]%list_elem_of_filter. by apply Hl. Qed.

Lemma tracked_nil P : tracked P [].
Proof. by intros p ?%elem_of_nil. Qed.

Lemma tracked_delete P rp seq rt :
  find_proxy seq rp = Some rt → tracked P rp →
  tracked (mark_deleted (p_id rt) P) (drop_proxy seq rp).
Proof.
  intros [Hrt Hseq]%find_proxy_Some Hl p [Hne Hp]%list_elem_of_filter.
  unfold mark_deleted. destruct (P !! p_id rt) as [c|] eqn:E; [|by apply Hl].
  rewrite list_lookup_insert_ne; [by apply Hl|].
  intros Heq. destruct (Hl _ Hp) as (ph1 & H1 & _). destruct (Hl _ Hrt) as (ph2 & H2 & _).
  rewrite <- Heq in H1. congruence.
Qed.

(** The chain stops tracking its proxy when the proxy leaves [runningPool]. *)
Lemma tracked_settle P rp q c x :
  P !! q = Some c → tracked P rp →
  tracked (<[q := x]> P) (drop_proxy (p_seq (c_proxy c)) rp).
Proof.
  intros Hq Hl p [Hne Hp]%list_elem_of_filter.
  rewrite list_lookup_insert_ne; [by apply Hl|].
  intros ->. destruct (Hl _ Hp) as (ph & H1 & _). rewrite Hq in H1.
  injection H1 as Heq. subst c. by simpl in Hne.
Qed.

(** An exception in the [then] callback leaves the proxy in [runningPool]. *)
Lemma tracked_thrown P rp q c x :
  P !! q = Some c →
  c_proxy x = c_proxy c → c_deleted x = c_deleted c → unsettled (c_phase x) = true →
  tracked P rp → tracked (<[q := x]> P) rp.
Proof.
  intros Hq Hx1 Hx2 Hx3 Hl p Hp. destruct (Hl _ Hp) as (ph & H1 & H2).
  destruct (decide (q = p_id p)) as [->|Hne].
  - exists (c_phase x). split; [|done].
    rewrite list_lookup_insert_eq by (by eapply lookup_lt_Some).
    rewrite Hq in H1. injection H1 as ->. destruct x. simpl in *. by subst.
  - exists ph. split; [|done]. by rewrite list_lookup_insert_ne.
Qed.

(** A chain that is marked deleted or past its [then]/[catch] stage tracks
    no proxy of [runningPool]. *)
Lemma tracked_insert P rp q c x :
  P !! q = Some c → c_deleted c = true ∨ unsettled (c_phase c) = false →
  tracked P rp → tracked (<[q := x]> P) rp.
Proof.
  intros Hq Hc Hl p Hp.
  rewrite list_lookup_insert_ne; [by apply Hl|].
  intros ->. destruct (Hl _ Hp) as (ph & H1 & H2). rewrite Hq in H1.
  injection H1 as Heq. subst c. simpl in Hc. destruct Hc; congruence.
Qed.

Ltac solve_tracked :=
  simpl;
  repeat first
    [ assumption
    | apply tracked_nil
    | eapply tracked_fill; [eassumption|]
    | eapply tracked_delete; [eassumption|]
    | eapply tracked_settle; [eassumption|]
    | eapply tracked_thrown; [eassumption|reflexivity|simpl; congruence|reflexivity|]
    | eapply tracked_insert;
        [eassumption
        |first [left; assumption|right; by match goal with H : c_phase _ = _ |- _ =>
                                             rewrite H end]|]
    | apply tracked_drop ].

Lemma step_tracked op tp : running_tracked tp → running_tracked (step op tp).1.
Proof.
  unfold running_tracked. destruct tp. simpl. intros Hl.
  destruct op as [task|seq| | | |n| | |b'|b'|q o|q|q]; try done; try apply tracked_nil.
  all: pool_unfold; pool_cases; fill_commute; solve_tracked.
Qed.

(** At every state reachable from construction, whatever the callbacks do,
    every proxy in [runningPool] is not marked deleted, and either its body
    has not settled or its [then] callback threw and its [catch] callback is
    due. *)
Lemma reachable_running_tracked taskPool ex c mo im au sub ops :
  running_tracked (run ops (new_TaskPool taskPool ex c mo im au sub)).1.
Proof.
  assert (H : ∀ tp, running_tracked tp → running_tracked (run ops tp).1).
  { induction ops as [|op ops IH]; intros tp Hl; [done|].
    rewrite run_cons. cbn [fst]. by apply IH, step_tracked. }
  apply H. apply tracked_nil.
Qed.

(** C10: [stop()] empties [runningPool] without touching the proxies.  For
    every task in [runningPool] whose body has not settled when [stop()] is
    called, whatever happens afterwards, the settlement of its body still
    appends its record to [resultPool] and to [chunkResultPool], and in
    immediate mode (constructor option [immediately] with a result callback)
    still makes the per-completion call of the result callback. *)
Theorem stop_keeps_settlement tp p ops o :
  p ∈ runningPool tp →
  promises tp !! p_id p = Some (mkClosure p false Pending) →
  forallb (λ op, negb (is_settle_of (p_id p) op)) ops = true →
  let tp1 := (run ops (stop tp)).1 in
  let r := settle (p_id p) o tp1 in
  let rec := outcome_record (p_seq p) o in
  promises (stop tp) = promises tp
  ∧ runningPool (stop tp) = []
  ∧ resultPool r.1 = resultPool tp1 ++ [rec]
  ∧ chunkResultPool r.1 = chunkResultPool tp1 ++ [rec]
  ∧ (opt_immediately tp = true → is_Some (executor tp) →
     completion_call (resultPool tp1 ++ [rec]) (p_seq p) o ∈ r.2).
Proof.
  intros Hp Hc Hops tp1 r rec.
  assert (Hab : abandoned (p_id p) (mkClosure p false Pending)
                  (promises tp1) (runningPool tp1)).
  { apply run_abandoned; [done|done|].
    split; [done|]. simpl. by intros q ?%elem_of_nil. }
  destruct Hab as [Hl _].
  destruct (settle_live (p_id p) _ o tp1 Hl eq_refl eq_refl) as (H1 & H2 & H3).
  destruct (run_options ops (stop tp)) as [Hi He].
  split_and!; [done|done|exact H1|exact H2|].
  intros Him Hex. apply H3; fold tp1 in Hi, He; by rewrite ?Hi, ?He.
Qed.

Lemma stop_keeps_settlement_witness :
  let tp1 := (run [AddTask (One (add_task 3 3)); Reset]
                  (stop (run [Start] pool_ordered_immediate).1)).1 in
  let r := settle 1 (Rejected 7) tp1 in
  resultPool r.1 = [mkResult 1 7 error]
  ∧ chunkResultPool r.1 = [mkResult 1 7 error]
  ∧ ExecutorCall [mkResult 1 7 error] None (Some 1) (Some 7%Z) ∈ r.2.
Proof.
  assert (Hin : mkProxy 1 0 [2; 2]%Z 1 ∈ runningPool (run [Start] pool_ordered_immediate).1)
    by (apply list_elem_of_In; simpl; auto).
  destruct (stop_keeps_settlement (run [Start] pool_ordered_immediate).1
              (mkProxy 1 0 [2; 2]%Z 1) [AddTask (One (add_task 3 3)); Reset]
              (Rejected 7) Hin eq_refl eq_refl) as (_ & _ & H1 & H2 & H3).
  split_and!; [exact H1|exact H2|exact (H3 eq_refl ltac:(by eexists))].
Defined.

(** ** Arrays handed to the caller *)

(** C9 (as stated, refuted): [getAllTasks()] returns the array of the field
    [allTasks] itself; after the caller pushes a task on it, the pool reads
    three tasks where it had two. *)
Lemma getAllTasks_alias_counterexample :
  ¬ Arrays.handed_out_arrays_private Arrays.refs_two Arrays.store_two.
Proof.
  intros [_ H].
  destruct (H (λ l, l ++ [mkSeqTask (add_task 9 9) 9])) as [_ Ha].
  vm_compute in Ha. discriminate.
Qed.

(** C9 (amended): [getStatus().results] is a new array with the elements of
    [resultPool]: whatever the caller does to it, the pool keeps its
    [allTasks] and [resultPool].  [getAllTasks()] returns the pool's own
    [allTasks] array, neither a copy nor a read-only view: what the caller
    does to that array is done to [allTasks]. *)
Theorem accessor_arrays o σ tp :
  Arrays.holds o σ tp →
  (let r := Arrays.getStatus_results o σ in
   Arrays.result_arrays r.2 !! r.1 = Some (results (getStatus tp))
   ∧ ∀ f, Arrays.holds o (Arrays.mutate_results r.1 f r.2) tp)
  ∧ (let r := Arrays.getAllTasks_ref o σ in
     Arrays.task_arrays r.2 !! r.1 = Some (getAllTasks tp)
     ∧ ∀ f, Arrays.holds o (Arrays.mutate_tasks r.1 f r.2)
                         (set_allTasks (f (allTasks tp)) tp)).
Proof.
  intros [Ht Hr]. split.
  - simpl. split.
    + rewrite list_lookup_middle by done. by rewrite Hr.
    + intros f. split; simpl; [done|].
      rewrite list_lookup_alter_ne by (apply lookup_lt_Some in Hr; lia).
      by apply lookup_app_l_Some.
  - simpl. split; [done|].
    intros f. split; simpl; [|done].
    by rewrite list_lookup_alter_eq, Ht.
Qed.

Lemma accessor_arrays_witness :
  Arrays.holds Arrays.refs_two
    (Arrays.mutate_results 1 (λ _, [])
       (Arrays.getStatus_results Arrays.refs_two Arrays.store_two).2)
    pool_two
  ∧ Arrays.holds Arrays.refs_two
      (Arrays.mutate_tasks 0 (λ _, []) Arrays.store_two)
      (set_allTasks [] pool_two).
Proof.
  destruct (accessor_arrays Arrays.refs_two Arrays.store_two pool_two
              (conj eq_refl eq_refl)) as [[_ H1] [_ H2]].
  split; [exact (H1 (λ _, []))|exact (H2 (λ _, []))].
Defined.

(** * Further properties of the methods *)

(** ** The scheduling pass *)

Lemma body_call_proxies_from i ts :
  body_call <$> proxies_from i ts = task_call <$> ts.
Proof. revert i; induction ts as [|t ts IH]; intros i; simpl; [done|]. by rewrite IH. Qed.

Lemma seq_proxies_from i ts : p_seq <$> proxies_from i ts = t_seq <$> ts.
Proof. revert i; induction ts as [|t ts IH]; intros i; simpl; [done|]. by rewrite IH. Qed.

(** X1: a pass of a pool that is not paused starts the first
    [k = min(|restPool|, max(concurrency - |runningPool|, 0))] waiting tasks,
    in the order of [restPool]; they move to the end of [runningPool] in that
    order and the other tasks keep waiting in their order. *)
Theorem pass_dispatches_fifo tp :
  paused tp = false →
  let k := length (restPool tp)
             `min` Z.to_nat (concurrency tp - Z.of_nat (length (runningPool tp))) in
  let r := executorFn tp in
  r.2 = task_call <$> take k (restPool tp)
  ∧ restPool r.1 = drop k (restPool tp)
  ∧ p_seq <$> runningPool r.1 = (p_seq <$> runningPool tp) ++ (t_seq <$> take k (restPool tp))
  ∧ take (length (runningPool tp)) (runningPool r.1) = runningPool tp.
Proof.
  intros Hp k r. subst r. rewrite executorFn_eq, Hp. simpl.
  fold (free_slots (concurrency tp) (restPool tp) (runningPool tp)). fold k.
  split_and!.
  - apply body_call_proxies_from.
  - done.
  - by rewrite fmap_app, seq_proxies_from.
  - by rewrite take_app_length.
Qed.

Lemma pass_dispatches_fifo_witness :
  (executorFn pool_three).2 = [BodyCall 0 0 [1; 1]%Z; BodyCall 1 0 [2; 2]%Z]
  ∧ restPool (executorFn pool_three).1 = [mkSeqTask (add_task 3 3) 2].
Proof.
  destruct (pass_dispatches_fifo pool_three eq_refl) as (H1 & H2 & _).
  split; [exact H1|exact H2].
Defined.

(** A pass that finds no free slot or no waiting task changes nothing. *)
Lemma executorFn_full tp :
  free_slots (concurrency tp) (restPool tp) (runningPool tp) = 0 →
  executorFn tp = (tp, []).
Proof.
  intros H. rewrite executorFn_eq, H. destruct (paused tp); [done|].
  simpl. rewrite !app_nil_r. by destruct tp.
Qed.

(** After a pass no free slot is left beside a waiting task. *)
Lemma executorFn_saturates tp : paused tp = false → saturated (executorFn tp).1.
Proof.
  intros Hp. rewrite executorFn_eq, Hp. unfold saturated, free_slots. simpl.
  rewrite length_drop, length_app, length_proxies_from, length_take.
  unfold free_slots. lia.
Qed.

(** X2: a pass leaves nothing for a second pass: running [executorFn] again
    right after it changes nothing and calls nothing. *)
Theorem pass_idempotent tp :
  executorFn (executorFn tp).1 = ((executorFn tp).1, []).
Proof.
  destruct (paused tp) eqn:Hp.
  - unfold executorFn at 2 3. rewrite Hp. simpl. unfold executorFn. by rewrite Hp.
  - apply executorFn_full. rewrite executorFn_eq, Hp. simpl.
    unfold free_slots. rewrite length_drop, length_app, length_proxies_from, length_take.
    lia.
Qed.

(** ** Non-positive concurrency *)

Lemma fill_stalled c rest rp P : (c ≤ 0)%Z → fill c rest rp P = (rest, rp, P, []).
Proof.
  intros Hc. rewrite fill_eq. unfold free_slots.
  replace (Z.to_nat (c - Z.of_nat (length rp))) with 0 by lia.
  rewrite Nat.min_0_r. simpl. by rewrite !app_nil_r.
Qed.

Lemma step_stalled op tp :
  (concurrency tp ≤ 0)%Z → is_set_concurrency op = false →
  (concurrency (step op tp).1 ≤ 0)%Z
  ∧ filter is_body_call (step op tp).2 = []
  ∧ length (runningPool (step op tp).1) ≤ length (runningPool tp).
Proof.
  intros Hc Hop. destruct tp. simpl in Hc.
  destruct op as [task|seq| | | |n| | |b'|b'|pid o|pid|pid]; try done;
    try (simpl; split_and!; by auto with lia).
  all: pool_unfold; pool_cases;
       repeat match goal with
              | H : fill _ _ _ _ = _ |- _ => rewrite fill_stalled in H by done; simplify_eq
              end;
       pool_simpl; split_and!; try done; try apply length_filter; try lia.
Qed.

(** X3: with [concurrency ≤ 0] nothing is ever dispatched: until
    [setConcurrency] is called, no method and no settlement calls a task body,
    and [runningPool] does not grow. *)
Theorem nonpositive_concurrency_stalls ops tp :
  (concurrency tp ≤ 0)%Z →
  forallb (λ op, negb (is_set_concurrency op)) ops = true →
  filter is_body_call (run ops tp).2 = []
  ∧ length (runningPool (run ops tp).1) ≤ length (runningPool tp).
Proof.
  revert tp; induction ops as [|op ops IH]; intros tp Hc Hops; [done|].
  simpl in Hops. apply andb_prop in Hops as [Hop Hops].
  apply negb_true_iff in Hop.
  destruct (step_stalled op tp Hc Hop) as (Hc1 & Hev1 & Hlen1).
  destruct (IH _ Hc1 Hops) as (Hev2 & Hlen2).
  rewrite run_cons. cbn [fst snd]. split; [by apply no_body_call_app|lia].
Qed.

Lemma nonpositive_concurrency_stalls_witness :
  filter is_body_call
    (run [Start; AddTask (One (add_task 4 4)); Pause; Resume; DeleteTask 0]
         (setConcurrency 0 pool_three)).2 = [].
Proof.
  exact (proj1 (nonpositive_concurrency_stalls
                  [Start; AddTask (One (add_task 4 4)); Pause; Resume; DeleteTask 0]
                  (setConcurrency 0 pool_three) ltac:(vm_compute; discriminate) eq_refl)).
Defined.

(** ** [addTask] *)

Lemma seq_assign_seq i ts : t_seq <$> assign_seq i ts = seq i (length ts).
Proof. revert i; induction ts as [|t ts IH]; intros i; simpl; [done|]. by rewrite IH. Qed.

Lemma task_assign_seq i ts : t_task <$> assign_seq i ts = ts.
Proof. revert i; induction ts as [|t ts IH]; intros i; simpl; [done|]. by rewrite IH. Qed.

Lemma length_assign_seq i ts : length (assign_seq i ts) = length ts.
Proof. revert i; induction ts as [|t ts IH]; intros i; simpl; [done|]. by rewrite IH. Qed.

(** A pass writes [restPool], [runningPool] and the chains only. *)
Lemma executorFn_shape tp :
  ∃ r rp P, (executorFn tp).1 = set_promises P (set_runningPool rp (set_restPool r tp)).
Proof.
  rewrite executorFn_eq. destruct (paused tp); simpl; [|by eauto].
  exists (restPool tp), (runningPool tp), (promises tp). by destruct tp.
Qed.

(** A pass keeps the queue: running tasks followed by waiting tasks. *)
Lemma executorFn_queue tp :
  (p_seq <$> runningPool (executorFn tp).1) ++ (t_seq <$> restPool (executorFn tp).1)
  = (p_seq <$> runningPool tp) ++ (t_seq <$> restPool tp).
Proof.
  rewrite executorFn_eq. destruct (paused tp); simpl; [done|].
  rewrite fmap_app, seq_proxies_from, <- app_assoc, <- fmap_app.
  by rewrite take_drop.
Qed.

Lemma start_shape tp :
  ∃ r rp P b, (start tp).1 =
    set_promises P (set_runningPool rp (set_restPool r (set_isRunning b tp))).
Proof.
  unfold start. destruct (isRunning tp) eqn:E.
  - exists (restPool tp), (runningPool tp), (promises tp), true. destruct tp.
    simpl in *. by subst.
  - destruct (executorFn_shape (set_isRunning true tp)) as (r & rp & P & ->). by eauto.
Qed.

Lemma start_queue tp :
  (p_seq <$> runningPool (start tp).1) ++ (t_seq <$> restPool (start tp).1)
  = (p_seq <$> runningPool tp) ++ (t_seq <$> restPool tp).
Proof.
  unfold start. destruct (isRunning tp); [done|].
  by rewrite executorFn_queue.
Qed.


(** X4: [addTask] numbers the new tasks [index, index + 1, ...] in the order
    given, advances [index] by their number, appends them to [allTasks], and
    puts them at the end of the queue of running and waiting tasks, whether
    or not a pass follows. *)
Theorem addTask_assigns_seqs task tp :
  let ts := tasks_of task in
  let new := assign_seq (index tp) ts in
  let r := addTask task tp in
  index r.1 = index tp + length ts
  ∧ allTasks r.1 = allTasks tp ++ new
  ∧ t_task <$> new = ts
  ∧ t_seq <$> new = seq (index tp) (length ts)
  ∧ (p_seq <$> runningPool r.1) ++ (t_seq <$> restPool r.1)
    = (p_seq <$> runningPool tp) ++ (t_seq <$> restPool tp) ++ (t_seq <$> new).
Proof.
  intros ts new r.
  assert (Hr : r =
    let tp3 := set_allTasks (allTasks tp ++ new)
                 (set_restPool (restPool tp ++ new)
                    (set_index (index tp + length new) tp)) in
    if autoSchedule tp then if isRunning tp then executorFn tp3 else start tp3
    else (tp3, [])).
  { subst r new ts. unfold addTask. by destruct task. }
  assert (Hlen : length new = length ts) by apply length_assign_seq.
  split_and!; [| |apply task_assign_seq|apply seq_assign_seq|].
  - rewrite Hr. simpl. destruct (autoSchedule tp); [|simpl; lia].
    destruct (isRunning tp).
    + destruct (executorFn_shape (set_allTasks (allTasks tp ++ new)
                 (set_restPool (restPool tp ++ new)
                    (set_index (index tp + length new) tp)))) as (?&?&?&->).
      simpl. lia.
    + destruct (start_shape (set_allTasks (allTasks tp ++ new)
                 (set_restPool (restPool tp ++ new)
                    (set_index (index tp + length new) tp)))) as (?&?&?&?&->).
      simpl. lia.
  - rewrite Hr. simpl. destruct (autoSchedule tp); [|done].
    destruct (isRunning tp).
    + by destruct (executorFn_shape (set_allTasks (allTasks tp ++ new)
                 (set_restPool (restPool tp ++ new)
                    (set_index (index tp + length new) tp)))) as (?&?&?&->).
    + by destruct (start_shape (set_allTasks (allTasks tp ++ new)
                 (set_restPool (restPool tp ++ new)
                    (set_index (index tp + length new) tp)))) as (?&?&?&?&->).
  - rewrite Hr. simpl. destruct (autoSchedule tp).
    + destruct (isRunning tp); [rewrite executorFn_queue|rewrite start_queue];
        simpl; by rewrite fmap_app.
    + simpl. by rewrite fmap_app.
Qed.

(** X5: [addTask([])] adds nothing, yet it is not a no-op: with
    [autoSchedule] on it is [start()] on an idle pool and a scheduling pass on
    an active one. *)
Theorem addTask_empty tp :
  addTask (Many []) tp =
    if autoSchedule tp then if isRunning tp then executorFn tp else start tp
    else (tp, []).
Proof.
  unfold addTask. cbn [assign_seq length].
  rewrite Nat.add_0_r.
  replace (set_allTasks _ _) with tp; [done|].
  destruct tp. unfold set_allTasks, set_restPool, set_index. simpl.
  by rewrite !app_nil_r.
Qed.

(** ** [deleteTask] *)

Lemma find_task_Some seq l t : find_task seq l = Some t → t ∈ l ∧ t_seq t = seq.
Proof.
  unfold find_task. destruct (list_find _ l) as [[i x]|] eqn:E; [|done].
  simpl. intros [= ->]. apply list_find_Some in E as (Hi & Hs & _).
  split; [|done]. by eapply list_elem_of_lookup_2.
Qed.

Lemma find_task_None seq l :
  find_task seq l = None ↔ Forall (λ t, t_seq t ≠ seq) l.
Proof.
  unfold find_task. destruct (list_find _ l) as [[i x]|] eqn:E; simpl.
  - split; [done|]. intros HF. apply list_find_Some in E as (Hi & Hs & _).
    rewrite Forall_forall in HF. exfalso. eapply HF; [|done].
    by eapply list_elem_of_lookup_2.
  - split; [|done]. intros _. by apply list_find_None in E.
Qed.

Lemma find_proxy_None seq l :
  find_proxy seq l = None ↔ Forall (λ p, p_seq p ≠ seq) l.
Proof.
  unfold find_proxy. destruct (list_find _ l) as [[i x]|] eqn:E; simpl.
  - split; [done|]. intros HF. apply list_find_Some in E as (Hi & Hs & _).
    rewrite Forall_forall in HF. exfalso. eapply HF; [|done].
    by eapply list_elem_of_lookup_2.
  - split; [|done]. intros _. by apply list_find_None in E.
Qed.


Lemma drop_proxy_absent seq l : Forall (λ p, p_seq p ≠ seq) l → drop_proxy seq l = l.
Proof.
  unfold drop_proxy. induction 1 as [|t l Ht Hl IH]; [done|].
  rewrite filter_cons_True by done. by rewrite IH.
Qed.

Lemma drop_result_absent seq l : Forall (λ r, r_seq r ≠ seq) l → drop_result seq l = l.
Proof.
  unfold drop_result. induction 1 as [|t l Ht Hl IH]; [done|].
  rewrite filter_cons_True by done. by rewrite IH.
Qed.



(** X7: [deleteTask] of a seq that no pool knows removes nothing and calls no
    cleanup callback; it is exactly one scheduling pass. *)
Theorem deleteTask_unknown seq tp :
  Forall (λ p, p_seq p ≠ seq) (runningPool tp) →
  Forall (λ t, t_seq t ≠ seq) (restPool tp) →
  Forall (λ t, t_seq t ≠ seq) (allTasks tp) →
  deleteTask seq tp = executorFn tp.
Proof.
  intros H1%find_proxy_None H2%find_task_None H3%find_task_None.
  unfold deleteTask. rewrite H1, H2, H3. by destruct (executorFn tp).
Qed.

Lemma deleteTask_unknown_witness :
  deleteTask 7 pool_three = executorFn pool_three.
Proof.
  apply deleteTask_unknown; repeat constructor; simpl; lia.
Defined.

Lemma no_start_task_call seq ts :
  Forall (λ t, t_seq t ≠ seq) ts → filter (starts_seq seq) (task_call <$> ts) = [].
Proof.
  induction 1 as [|t ts Ht Hts IH]; [done|].
  rewrite fmap_cons, filter_cons_False; [done|].
  apply Is_true_false. simpl. by apply Nat.eqb_neq.
Qed.

Lemma fill_absent seq c rest rp P r rp' P' ev :
  fill c rest rp P = (r, rp', P', ev) →
  Forall (λ t, t_seq t ≠ seq) rest →
  Forall (λ t, t_seq t ≠ seq) r ∧ filter (starts_seq seq) ev = [].
Proof.
  rewrite fill_eq. intros [= <- <- <- <-] HF. split.
  - by apply Forall_drop.
  - rewrite body_call_proxies_from. by apply no_start_task_call, Forall_take.
Qed.

Lemma assign_seq_absent seq i ts :
  seq < i → Forall (λ t, t_seq t ≠ seq) (assign_seq i ts).
Proof.
  revert i; induction ts as [|t ts IH]; intros i Hi; simpl; constructor.
  - simpl. lia.
  - apply IH. lia.
Qed.

Lemma Forall_drop_task (Q : SeqTask → Prop) seq l : Forall Q l → Forall Q (drop_task seq l).
Proof.
  rewrite !Forall_forall. intros H t [_ Ht]%list_elem_of_filter. by apply H.
Qed.

Ltac solve_absent :=
  first
    [ assumption
    | apply Forall_nil_2
    | apply Forall_drop_task; assumption
    | apply Forall_app; split; [assumption|apply assign_seq_absent; simpl; lia]
    | apply Forall_app; split; [assumption|repeat constructor; simpl; lia] ].

(** As long as no waiting task has number [seq] and [index] is beyond it,
    no transition but [reset] calls a body for that seq. *)
Lemma step_never_starts seq op tp :
  Forall (λ t, t_seq t ≠ seq) (restPool tp) → seq < index tp →
  is_reset op = false →
  Forall (λ t, t_seq t ≠ seq) (restPool (step op tp).1)
  ∧ seq < index (step op tp).1
  ∧ filter (starts_seq seq) (step op tp).2 = [].
Proof.
  destruct tp. simpl. intros HF Hi Hop.
  destruct op as [task|s| | | |n| | |b'|b'|pid o|pid|pid]; try done;
    try (simpl; split_and!; by auto).
  all: pool_unfold; pool_cases;
       repeat match goal with
              | H : fill _ _ _ _ = _ |- _ =>
                  apply (fill_absent seq) in H; [destruct H as [? ?]|solve_absent]
              end;
       pool_simpl; split_and!; try solve_absent; try lia;
       rewrite ?filter_app; try done;
       repeat match goal with H : filter (starts_seq seq) _ = [] |- _ => rewrite H end;
       try done.
Qed.

Lemma run_never_starts seq ops tp :
  Forall (λ t, t_seq t ≠ seq) (restPool tp) → seq < index tp →
  forallb (λ op, negb (is_reset op)) ops = true →
  Forall (λ t, t_seq t ≠ seq) (restPool (run ops tp).1)
  ∧ filter (starts_seq seq) (run ops tp).2 = [].
Proof.
  revert tp; induction ops as [|op ops IH]; intros tp HF Hi Hops; [done|].
  simpl in Hops. apply andb_prop in Hops as [Hop Hops].
  apply negb_true_iff in Hop.
  destruct (step_never_starts seq op tp HF Hi Hop) as (HF1 & Hi1 & Hev1).
  destruct (IH _ HF1 Hi1 Hops) as (HF2 & Hev2).
  rewrite run_cons. cbn [fst snd]. split; [done|].
  by rewrite filter_app, Hev1, Hev2.
Qed.




(** ** What the callbacks receive *)

Lemma insert_seq_nonempty r l : insert_seq r l ≠ [].
Proof. destruct l; simpl; [done|]. by case_match. Qed.

Lemma fill_delivers_nothing c rest rp P r rp' P' ev e :
  fill c rest rp P = (r, rp', P', ev) → e ∈ ev → delivered e = None.
Proof.
  rewrite fill_eq. intros [= <- <- <- <-] [p [-> _]]%list_elem_of_fmap. done.
Qed.

(** X9: the result callback and the submit callback never receive an empty
    array: the per-completion call carries at least the record just made, and
    the drain-time calls are guarded by a length test. *)
Theorem callbacks_never_get_empty op tp e l :
  e ∈ (step op tp).2 → delivered e = Some l → l ≠ [].
Proof.
  destruct tp. destruct resultPool0 as [|r0 rs], chunkResultPool0 as [|c0 cs].
  all: destruct op as [task|s| | | |n| | |b'|b'|pid o|pid|pid];
       try (simpl; by intros ?%elem_of_nil).
  all: pool_unfold; pool_cases; intros He Hd;
       try match goal with
           | H : _ && false = true |- _ => rewrite andb_false_r in H; discriminate
           end;
       repeat first
         [ apply elem_of_nil in He; destruct He
         | apply elem_of_app in He as [He|He]
         | apply elem_of_cons in He as [->|He] ];
       try (simpl in Hd; simplify_eq; try done; apply insert_seq_nonempty);
       try match goal with
           | H : fill _ _ _ _ = _ |- _ =>
               rewrite (fill_delivers_nothing _ _ _ _ _ _ _ _ _ H He) in Hd; done
           end.
Qed.

Lemma callbacks_never_get_empty_witness :
  [mkResult 0 2 success] ≠ [].
Proof.
  apply (callbacks_never_get_empty (Finally 0)
           (run [Start; Settle 0 (Fulfilled 2)] pool_deferred).1
           (ExecutorCall [mkResult 0 2 success] None None None)).
  - vm_compute. apply list_elem_of_here.
  - reflexivity.
Defined.

(** ** Order of the records *)

Lemma step_append_only op tp :
  maintainOrder tp = false → removes_records op = false →
  maintainOrder (step op tp).1 = false
  ∧ resultPool tp `prefix_of` resultPool (step op tp).1.
Proof.
  destruct tp. simpl. intros -> Hop.
  destruct op as [task|s| | | |n| | |b'|b'|pid o|pid|pid]; try done.
  all: pool_unfold; pool_cases; split; try done; by apply prefix_app_r.
Qed.

(** X10: with [maintainOrder = false] the records stay in settlement order:
    apart from [deleteTask] and [reset], no method and no callback removes or
    moves a record of [resultPool]; records are only added at its end. *)
Theorem results_in_settlement_order ops tp :
  maintainOrder tp = false →
  forallb (λ op, negb (removes_records op)) ops = true →
  resultPool tp `prefix_of` resultPool (run ops tp).1.
Proof.
  revert tp; induction ops as [|op ops IH]; intros tp Hmo Hops; [done|].
  simpl in Hops. apply andb_prop in Hops as [Hop Hops].
  apply negb_true_iff in Hop.
  destruct (step_append_only op tp Hmo Hop) as [Hmo1 Hpre].
  rewrite run_cons. cbn [fst]. etrans; [exact Hpre|]. by apply IH.
Qed.

Lemma results_in_settlement_order_witness :
  resultPool (run [Start; Settle 1 (Fulfilled 4)] pool_two).1
  `prefix_of`
  resultPool (run [Settle 0 (Rejected 3); Finally 1; Finally 0; Stop]
                  (run [Start; Settle 1 (Fulfilled 4)] pool_two).1).1.
Proof.
  exact (results_in_settlement_order [Settle 0 (Rejected 3); Finally 1; Finally 0; Stop]
           (run [Start; Settle 1 (Fulfilled 4)] pool_two).1 eq_refl eq_refl).
Defined.

(** The calls the [finally] callback of a chain can make. *)
Lemma finally_calls pid tp e :
  e ∈ (finally pid tp).2 →
  e = ExecutorCall (ordered tp (resultPool tp)) None None None
  ∨ e = SubmitCall (ordered tp (chunkResultPool tp)).
Proof.
  unfold finally. intros He.
  destruct (promises tp !! pid) as [c|]; [|by apply elem_of_nil in He].
  destruct (c_phase c); try by apply elem_of_nil in He.
  by apply on_finally_calls in He.
Qed.

Lemma ordered_perm tp l : ordered tp l ≡ₚ l.
Proof. unfold ordered. destruct (maintainOrder tp); [apply sort_by_seq_perm|done]. Qed.

Lemma ordered_sorted tp l : maintainOrder tp = true → Sorted seq_le (ordered tp l).
Proof. unfold ordered. intros ->. apply sort_by_seq_sorted. Qed.

Lemma finally_delivers_sorted pid tp e l :
  maintainOrder tp = true →
  e ∈ (finally pid tp).2 → delivered e = Some l → Sorted seq_le l.
Proof. intros Hmo [->| ->]%finally_calls [= <-]; by apply ordered_sorted. Qed.

Lemma finally_delivers_perm pid tp e l :
  e ∈ (finally pid tp).2 → delivered e = Some l →
  l ≡ₚ resultPool tp ∨ l ≡ₚ chunkResultPool tp.
Proof.
  intros [->| ->]%finally_calls [= <-]; [left|right]; apply ordered_perm.
Qed.

(** X11: with [maintainOrder = true], the array that a [finally] callback
    passes to the result callback is in ascending seq order and holds exactly
    the records of [resultPool] at that moment, and the call carries no
    current result, seq or error; the array it passes to the submit callback
    is in ascending seq order and holds exactly the records of
    [chunkResultPool] at that moment. *)
Theorem drain_delivers_sorted pid tp :
  maintainOrder tp = true →
  (∀ l crt idx err, ExecutorCall l crt idx err ∈ (finally pid tp).2 →
     Sorted seq_le l ∧ l ≡ₚ resultPool tp ∧ crt = None ∧ idx = None ∧ err = None)
  ∧ (∀ l, SubmitCall l ∈ (finally pid tp).2 →
       Sorted seq_le l ∧ l ≡ₚ chunkResultPool tp).
Proof.
  intros Hmo. split.
  - intros l crt idx err [H|H]%finally_calls; [|done].
    injection H as -> -> -> ->.
    split_and!; [by apply ordered_sorted|apply ordered_perm|done..].
  - intros l [H|H]%finally_calls; [done|].
    injection H as ->. split; [by apply ordered_sorted|apply ordered_perm].
Qed.

Lemma drain_delivers_sorted_witness :
  Sorted seq_le [mkResult 0 2 success; mkResult 1 4 success]
  ∧ [mkResult 0 2 success; mkResult 1 4 success]
    ≡ₚ [mkResult 1 4 success; mkResult 0 2 success].
Proof.
  destruct (proj1 (drain_delivers_sorted 0
              (run [Start; Settle 1 (Fulfilled 4); Finally 1; Settle 0 (Fulfilled 2)]
                   (new_TaskPool [add_task 1 1; add_task 2 2] (Some returning) 2
                                 true false false None)).1 eq_refl)
              [mkResult 0 2 success; mkResult 1 4 success] None None None)
    as (H1 & H2 & _).
  - vm_compute. apply list_elem_of_here.
  - split; [exact H1|exact H2].
Defined.

(** ** [pause], [resume], [reset] and the active flag *)

(** X12: [pause()] followed at once by [resume()] on a pool that was not
    paused is one scheduling pass that also marks the pool active: it equals
    [executorFn] run with [isRunning] set, whether the pool was active or
    idle before. *)
Theorem pause_resume_is_a_pass tp :
  paused tp = false →
  run [Pause; Resume] tp = executorFn (set_isRunning true tp).
Proof.
  intros Hp. rewrite run_cons. cbn [step fst snd]. rewrite run_cons.
  cbn [step fst snd run]. rewrite app_nil_r. cbn [app].
  unfold resume, pause. cbn [paused set_paused negb].
  replace (set_paused false (set_paused true tp)) with tp
    by (destruct tp; simpl in *; by subst).
  destruct (isRunning tp) eqn:Hr; cbn [negb].
  - replace (set_isRunning true tp) with tp by (destruct tp; simpl in *; by subst).
    by destruct (executorFn tp).
  - rewrite (start_when_idle _ Hr). by destruct (executorFn _).
Qed.

Lemma pause_resume_is_a_pass_witness :
  run [Pause; Resume] pool_three = executorFn (set_isRunning true pool_three).
Proof. exact (pause_resume_is_a_pass pool_three eq_refl). Defined.

(** X13: when the [finally] callback of a settled task finds the pool
    drained and none of the calls it makes (the drain-time call of the result
    callback, the call of [submit]) throws, [isRunning] is cleared, so the
    next [start()] runs a pass again. *)
Theorem drain_clears_active_flag pid c tp :
  promises tp !! pid = Some c → c_phase c = Settled →
  drained tp = true →
  let r := finally pid tp in
  existsb (executor_call_throws tp) r.2 = false →
  existsb (submit_call_throws tp) r.2 = false →
  isRunning r.1 = false
  ∧ start r.1 = executorFn (set_isRunning true r.1).
Proof.
  intros Hc Hph Hdr r Hex Hsub.
  assert (Hrun : isRunning r.1 = false).
  { subst r. rewrite (finally_settled _ _ _ Hc Hph) in *.
    unfold drained in Hdr. destruct tp. simpl in *.
    unfold on_finally, drain_call, flush_chunk, call_executor, notify_drain, mark_phase,
      ordered, executor_call_throws, submit_call_throws in *.
    cbn -[filter lookup insert sort_by_seq] in *. rewrite Hdr in *.
    repeat (case_match; cbn -[filter lookup insert sort_by_seq] in *; simplify_eq);
      first [done|congruence]. }
  split; [done|]. by apply start_when_idle.
Qed.

Lemma drain_clears_active_flag_witness :
  isRunning (finally 0 pool_submit_picky).1 = false.
Proof.
  exact (proj1 (drain_clears_active_flag 0
                  (mkClosure (mkProxy 0 0 [1; 1]%Z 0) false Settled)
                  pool_submit_picky eq_refl eq_refl eq_refl eq_refl eq_refl)).
Defined.


(** ** Consistency of the pools *)

Lemma fmap_filter_comm {A B} (f : A → B) (P : B → Prop)
    `{HP : ∀ y, Decision (P y)} `{HQ : ∀ x, Decision (P (f x))} (l : list A) :
  f <$> filter (λ x, P (f x)) l = filter P (f <$> l).
Proof.
  induction l as [|x l IH]; [done|].
  rewrite fmap_cons, !filter_cons.
  destruct (@decide _ (HQ x)), (@decide _ (HP (f x))); try done.
  by rewrite fmap_cons, IH.
Qed.

Lemma seq_drop_task seq l :
  t_seq <$> drop_task seq l = filter (λ s, s ≠ seq) (t_seq <$> l).
Proof. apply (fmap_filter_comm t_seq (λ s, s ≠ seq)). Qed.

Lemma seq_drop_proxy seq l :
  p_seq <$> drop_proxy seq l = filter (λ s, s ≠ seq) (p_seq <$> l).
Proof. apply (fmap_filter_comm p_seq (λ s, s ≠ seq)). Qed.

Lemma seq_drop_result seq l :
  r_seq <$> drop_result seq l = filter (λ s, s ≠ seq) (r_seq <$> l).
Proof. apply (fmap_filter_comm r_seq (λ s, s ≠ seq)). Qed.

Lemma filter_absent (seq : nat) (l : list nat) :
  seq ∉ l → filter (λ s, s ≠ seq) l = l.
Proof.
  induction l as [|x l IH]; [done|].
  intros [Hx Hl]%not_elem_of_cons.
  rewrite filter_cons_True by done. by rewrite IH.
Qed.

Lemma perm_remove (seq : nat) (l : list nat) :
  NoDup l → seq ∈ l → l ≡ₚ seq :: filter (λ s, s ≠ seq) l.
Proof.
  intros Hnd Hin. apply NoDup_Permutation; [done| |].
  - apply NoDup_cons. split; [|by apply NoDup_filter].
    by intros [? _]%list_elem_of_filter.
  - intros x. rewrite elem_of_cons, list_elem_of_filter.
    destruct (decide (x = seq)) as [->|Hne]; tauto.
Qed.

Lemma NoDup_fmap_eq {A B} (f : A → B) (l : list A) x y :
  NoDup (f <$> l) → x ∈ l → y ∈ l → f x = f y → x = y.
Proof.
  induction l as [|z l IH]; [by intros _ ?%elem_of_nil|].
  rewrite fmap_cons, NoDup_cons.
  intros [Hz Hnd] [->|Hx]%elem_of_cons [->|Hy]%elem_of_cons Hf; [done| | |by apply IH].
  - exfalso. apply Hz. rewrite Hf. by apply list_elem_of_fmap_2.
  - exfalso. apply Hz. rewrite <- Hf. by apply list_elem_of_fmap_2.
Qed.

Lemma lookup_fresh_proxies n ts i c :
  (fresh_closure <$> proxies_from n ts) !! i = Some c →
  p_id (c_proxy c) = n + i ∧ c_proxy c ∈ proxies_from n ts.
Proof.
  revert n i; induction ts as [|t ts IH]; intros n i; simpl; [done|].
  destruct i as [|i]; simpl.
  - intros [= <-]. simpl. split; [lia|apply list_elem_of_here].
  - intros H. apply IH in H as [H1 H2]. split; [lia|by apply list_elem_of_further].
Qed.

(** The pending chains of the running proxies. *)
Lemma live_fill c rest rp P r rp' P' ev :
  fill c rest rp P = (r, rp', P', ev) → live P rp → live P' rp'.
Proof.
  rewrite fill_eq. intros [= <- <- <- <-] Hl p [Hp|Hp]%elem_of_app.
  - by apply lookup_app_l_Some, Hl.
  - by apply lookup_proxies_from.
Qed.

Lemma live_nil P : live P [].
Proof. by intros p ?%elem_of_nil. Qed.

Lemma live_delete P rp seq rt :
  find_proxy seq rp = Some rt → live P rp →
  live (mark_deleted (p_id rt) P) (drop_proxy seq rp).
Proof.
  intros [Hrt Hseq]%find_proxy_Some Hl p [Hne Hp]%list_elem_of_filter.
  unfold mark_deleted. destruct (P !! p_id rt) as [c|] eqn:E; [|by apply Hl].
  rewrite list_lookup_insert_ne; [by apply Hl|].
  intros Heq. pose proof (Hl _ Hp) as H1. pose proof (Hl _ Hrt) as H2.
  rewrite <- Heq in H1. congruence.
Qed.

Lemma live_settle P rp q c x :
  P !! q = Some c → live P rp →
  live (<[q := x]> P) (drop_proxy (p_seq (c_proxy c)) rp).
Proof.
  intros Hq Hl p [Hne Hp]%list_elem_of_filter.
  rewrite list_lookup_insert_ne; [by apply Hl|].
  intros ->. pose proof (Hl _ Hp) as H1. rewrite Hq in H1.
  injection H1 as Heq. subst c. by simpl in Hne.
Qed.

Lemma live_insert P rp q c x :
  P !! q = Some c → mkClosure (c_proxy c) false Pending ≠ c → live P rp →
  live (<[q := x]> P) rp.
Proof.
  intros Hq Hc Hl p Hp.
  rewrite list_lookup_insert_ne; [by apply Hl|].
  intros ->. pose proof (Hl _ Hp) as H1. rewrite Hq in H1.
  injection H1 as Heq. subst c. by simpl in Hc.
Qed.

Lemma consistent_pools_nodup idx all rp rest res chunk P :
  Consistent idx all rp rest res chunk P →
  NoDup ((p_seq <$> rp) ++ (t_seq <$> rest) ++ (r_seq <$> res)).
Proof. intros [Hnd Hperm _ _ _ _ _ _]. by rewrite <- Hperm. Qed.

Lemma consistent_fill idx all rp rest res chunk P c r rp' P' ev :
  fill c rest rp P = (r, rp', P', ev) →
  Consistent idx all rp rest res chunk P →
  Consistent idx all rp' r res chunk P'.
Proof.
  intros Hfill [Hnd Hperm Hidx Hids Htr Hlive Hcn Hcs].
  pose proof (live_fill _ _ _ _ _ _ _ _ Hfill Hlive) as Hlive'.
  rewrite fill_eq in Hfill. injection Hfill as <- <- <- <-.
  set (k := free_slots c rest rp) in *.
  constructor; try done.
  - rewrite Hperm, fmap_app, seq_proxies_from, <- app_assoc.
    rewrite <- (take_drop k rest) at 1. by rewrite fmap_app, <- app_assoc.
  - intros pid cl [H|[Hge H]]%lookup_app_Some; [by eapply Hids|].
    apply lookup_fresh_proxies in H as [H _]. lia.
  - intros pid cl [H|[Hge H]]%lookup_app_Some Hph Hdel.
    + apply elem_of_app. left. by eapply Htr.
    + apply elem_of_app. right. by apply lookup_fresh_proxies in H as [_ H].
Qed.

Lemma consistent_add idx all rp rest res chunk P ts :
  Consistent idx all rp rest res chunk P →
  Consistent (idx + length (assign_seq idx ts)) (all ++ assign_seq idx ts) rp
             (rest ++ assign_seq idx ts) res chunk P.
Proof.
  intros [Hnd Hperm Hidx Hids Htr Hlive Hcn Hcs].
  constructor; try done.
  - rewrite fmap_app, seq_assign_seq. apply NoDup_app. split_and!; [done| |apply NoDup_seq].
    intros s [t [-> Ht]]%list_elem_of_fmap [Hs _]%elem_of_seq.
    rewrite Forall_forall in Hidx. apply Hidx in Ht. simpl in Ht. lia.
  - rewrite !fmap_app, Hperm, <- !app_assoc. do 2 f_equiv. apply Permutation_app_comm.
  - apply Forall_app. split.
    + eapply Forall_impl; [exact Hidx|]. simpl. lia.
    + apply Forall_forall. intros t Ht.
      assert (Hs : t_seq t ∈ seq idx (length ts)).
      { rewrite <- seq_assign_seq. by apply list_elem_of_fmap_2. }
      apply elem_of_seq in Hs. rewrite length_assign_seq. lia.
Qed.

(** The three branches of [deleteTask] filter the seq lists alike. *)
Lemma consistent_filter_perm (seq : nat) (A R W F : list nat) :
  A ≡ₚ R ++ W ++ F →
  filter (λ s, s ≠ seq) A
  ≡ₚ filter (λ s, s ≠ seq) R ++ filter (λ s, s ≠ seq) W ++ filter (λ s, s ≠ seq) F.
Proof. intros ->. by rewrite !filter_app. Qed.

Lemma consistent_delete_running idx all rp rest res chunk P seq rt :
  find_proxy seq rp = Some rt →
  Consistent idx all rp rest res chunk P →
  Consistent idx (drop_task seq all) (drop_proxy seq rp) rest res chunk
             (mark_deleted (p_id rt) P).
Proof.
  intros Hf HC. pose proof (consistent_pools_nodup _ _ _ _ _ _ _ HC) as Hpn.
  destruct HC as [Hnd Hperm Hidx Hids Htr Hlive Hcn Hcs].
  pose proof (find_proxy_Some _ _ _ Hf) as [Hrt Hseq].
  apply NoDup_app in Hpn as (Hrn & Hdisj & Hwf).
  assert (Hin : seq ∈ p_seq <$> rp) by (rewrite <- Hseq; by apply list_elem_of_fmap_2).
  assert (Hout : seq ∉ (t_seq <$> rest) ++ (r_seq <$> res)) by by apply Hdisj.
  apply not_elem_of_app in Hout as [Hw Hr].
  constructor; try done.
  - rewrite seq_drop_task. by apply NoDup_filter.
  - rewrite seq_drop_task, seq_drop_proxy, (consistent_filter_perm _ _ _ _ _ Hperm).
    by rewrite (filter_absent _ _ Hw), (filter_absent _ _ Hr).
  - by apply Forall_drop_task.
  - intros pid c. unfold mark_deleted.
    destruct (P !! p_id rt) as [c0|] eqn:E; [|by apply Hids].
    destruct (decide (p_id rt = pid)) as [<-|Hne].
    + rewrite list_lookup_insert_eq by (by eapply lookup_lt_Some).
      intros [= <-]. simpl. by eapply Hids.
    + rewrite list_lookup_insert_ne by done. apply Hids.
  - intros pid c. unfold mark_deleted.
    destruct (P !! p_id rt) as [c0|] eqn:E.
    + destruct (decide (p_id rt = pid)) as [<-|Hne].
      * rewrite list_lookup_insert_eq by (by eapply lookup_lt_Some).
        by intros [= <-].
      * rewrite list_lookup_insert_ne by done. intros Hc Hph Hdel.
        apply list_elem_of_filter. split; [|by eapply Htr].
        intros Heq. apply Hne.
        assert (c_proxy c = rt).
        { eapply (NoDup_fmap_eq p_seq rp); [done|by eapply Htr|done|congruence]. }
        subst rt. by eapply Hids.
    + intros Hc Hph Hdel.
      apply list_elem_of_filter. split; [|by eapply Htr].
      intros Heq.
      assert (c_proxy c = rt).
      { eapply (NoDup_fmap_eq p_seq rp); [done|by eapply Htr|done|congruence]. }
      subst rt. pose proof (Hlive _ Hrt) as Hl. by rewrite E in Hl.
  - by apply live_delete.
Qed.

Lemma consistent_delete_waiting idx all rp rest res chunk P seq t :
  find_proxy seq rp = None → find_task seq rest = Some t →
  Consistent idx all rp rest res chunk P →
  Consistent idx (drop_task seq all) rp (drop_task seq rest) res chunk P.
Proof.
  intros Hf Hw HC. pose proof (consistent_pools_nodup _ _ _ _ _ _ _ HC) as Hpn.
  destruct HC as [Hnd Hperm Hidx Hids Htr Hlive Hcn Hcs].
  apply find_proxy_None in Hf. apply find_task_Some in Hw as [Ht Hseq].
  rewrite (app_assoc _ _ (r_seq <$> res)) in Hpn.
  apply NoDup_app in Hpn as (_ & Hdisj & _).
  assert (Hr : seq ∉ r_seq <$> res).
  { apply Hdisj, elem_of_app. right. rewrite <- Hseq. by apply list_elem_of_fmap_2. }
  assert (Hrp : seq ∉ p_seq <$> rp).
  { intros [p [-> Hp]]%list_elem_of_fmap. rewrite Forall_forall in Hf. by eapply Hf. }
  constructor; try done.
  - rewrite seq_drop_task. by apply NoDup_filter.
  - rewrite !seq_drop_task, (consistent_filter_perm _ _ _ _ _ Hperm).
    by rewrite (filter_absent _ _ Hrp), (filter_absent _ _ Hr).
  - by apply Forall_drop_task.
Qed.

Lemma consistent_delete_done idx all rp rest res chunk P seq :
  find_proxy seq rp = None → find_task seq rest = None →
  Consistent idx all rp rest res chunk P →
  Consistent idx (drop_task seq all) rp rest (drop_result seq res)
             (drop_result seq chunk) P.
Proof.
  intros Hf Hw [Hnd Hperm Hidx Hids Htr Hlive Hcn Hcs].
  apply find_proxy_None in Hf. apply find_task_None in Hw.
  assert (Hrp : seq ∉ p_seq <$> rp).
  { intros [p [-> Hp]]%list_elem_of_fmap. rewrite Forall_forall in Hf. by eapply Hf. }
  assert (Hrest : seq ∉ t_seq <$> rest).
  { intros [p [-> Hp]]%list_elem_of_fmap. rewrite Forall_forall in Hw. by eapply Hw. }
  constructor; try done.
  - rewrite seq_drop_task. by apply NoDup_filter.
  - rewrite seq_drop_task, seq_drop_result, (consistent_filter_perm _ _ _ _ _ Hperm).
    by rewrite (filter_absent _ _ Hrp), (filter_absent _ _ Hrest).
  - by apply Forall_drop_task.
  - rewrite seq_drop_result. by apply NoDup_filter.
  - rewrite !seq_drop_result. intros s [Hs Hin]%list_elem_of_filter.
    apply list_elem_of_filter. split; [done|]. by apply Hcs.
Qed.

Lemma consistent_settle idx all rp rest res chunk P pid c c' rec :
  P !! pid = Some c → c_phase c = Pending → c_deleted c = false →
  c_proxy c' = c_proxy c → c_phase c' ≠ Pending →
  r_seq rec = p_seq (c_proxy c) →
  Consistent idx all rp rest res chunk P →
  Consistent idx all (drop_proxy (p_seq (c_proxy c)) rp) rest (res ++ [rec])
             (chunk ++ [rec]) (<[pid := c']> P).
Proof.
  intros Hc Hph Hdel Hc' Hph' Hrec HC.
  pose proof (consistent_pools_nodup _ _ _ _ _ _ _ HC) as Hpn.
  destruct HC as [Hnd Hperm Hidx Hids Htr Hlive Hcn Hcs].
  pose proof (Htr _ _ Hc Hph Hdel) as Hin.
  apply NoDup_app in Hpn as (Hrn & Hdisj & Hwf).
  set (s := p_seq (c_proxy c)) in *.
  assert (Hs : s ∈ p_seq <$> rp) by by apply list_elem_of_fmap_2.
  assert (Hout : s ∉ (t_seq <$> rest) ++ (r_seq <$> res)) by by apply Hdisj.
  apply not_elem_of_app in Hout as [Hw Hr].
  constructor; try done.
  - rewrite Hperm, seq_drop_proxy, fmap_app. simpl. rewrite Hrec.
    rewrite (perm_remove s (p_seq <$> rp)) at 1 by done.
    rewrite !app_assoc. rewrite <- Permutation_cons_append. done.
  - intros q cl [[-> [<- _]]|[Hne Hl]]%list_lookup_insert_Some.
    + rewrite Hc'. by eapply Hids.
    + by eapply Hids.
  - intros q cl [[-> [<- _]]|[Hne Hl]]%list_lookup_insert_Some Hp Hd; [done|].
    apply list_elem_of_filter. split; [|by eapply Htr].
    intros Heq. apply Hne.
    assert (c_proxy cl = c_proxy c).
    { eapply (NoDup_fmap_eq p_seq rp); [done|by eapply Htr|done|done]. }
    rewrite <- (Hids _ _ Hc), <- (Hids _ _ Hl). congruence.
  - by eapply live_settle.
  - rewrite fmap_app. simpl. rewrite Hrec.
    apply NoDup_app. split_and!; [done| |apply NoDup_singleton].
    intros x Hx ->%list_elem_of_singleton. by apply Hr, Hcs.
  - rewrite !fmap_app. intros x [Hx|Hx]%elem_of_app; apply elem_of_app.
    + left. by apply Hcs.
    + by right.
Qed.

(** Rewriting the closure of a chain that is settled or marked deleted. *)
Lemma consistent_mark idx all rp rest res chunk P pid c c' :
  P !! pid = Some c →
  c_proxy c' = c_proxy c → c_phase c' ≠ Pending →
  (c_phase c ≠ Pending ∨ c_deleted c = true) →
  Consistent idx all rp rest res chunk P →
  Consistent idx all rp rest res chunk (<[pid := c']> P).
Proof.
  intros Hc Hc' Hph' Hold [Hnd Hperm Hidx Hids Htr Hlive Hcn Hcs].
  constructor; try done.
  - intros q cl [[-> [<- _]]|[Hne Hl]]%list_lookup_insert_Some.
    + rewrite Hc'. by eapply Hids.
    + by eapply Hids.
  - intros q cl [[-> [<- _]]|[Hne Hl]]%list_lookup_insert_Some Hp Hd; [done|].
    by eapply Htr.
  - eapply live_insert; [done| |done].
    intros Heq. rewrite <- Heq in Hold. simpl in Hold. by destruct Hold.
Qed.

Lemma consistent_sort_results idx all rp rest res chunk P :
  Consistent idx all rp rest res chunk P →
  Consistent idx all rp rest (sort_by_seq res) chunk P.
Proof.
  intros [Hnd Hperm Hidx Hids Htr Hlive Hcn Hcs].
  constructor; try done.
  - by rewrite sort_by_seq_perm.
  - intros x Hx. rewrite sort_by_seq_perm. by apply Hcs.
Qed.

Lemma consistent_sort_chunk idx all rp rest res chunk P :
  Consistent idx all rp rest res chunk P →
  Consistent idx all rp rest res (sort_by_seq chunk) P.
Proof.
  intros [Hnd Hperm Hidx Hids Htr Hlive Hcn Hcs].
  constructor; try done.
  - by rewrite sort_by_seq_perm.
  - intros x Hx. rewrite sort_by_seq_perm in Hx. by apply Hcs.
Qed.

Lemma consistent_clear_chunk idx all rp rest res chunk P :
  Consistent idx all rp rest res chunk P →
  Consistent idx all rp rest res [] P.
Proof.
  intros [Hnd Hperm Hidx Hids Htr Hlive Hcn Hcs].
  constructor; try done.
  - apply NoDup_nil_2.
  - by intros x ?%elem_of_nil.
Qed.

Ltac solve_consistent :=
  pool_simpl;
  repeat first
    [ eassumption
    | eapply consistent_fill; [eassumption|]
    | match goal with
      | |- Consistent _ _ _ _ (sort_by_seq _) _ _ => apply consistent_sort_results
      | |- Consistent _ _ _ _ _ (sort_by_seq _) _ => apply consistent_sort_chunk
      | |- Consistent _ _ _ _ _ [] _ => eapply consistent_clear_chunk
      | |- Consistent _ _ (drop_proxy _ _) _ (_ ++ _) (_ ++ _) (<[_ := _]> _) =>
          eapply consistent_settle;
          [eassumption|assumption|assumption|reflexivity|discriminate|reflexivity|]
      | |- Consistent _ _ _ _ _ _ (<[_ := _]> _) =>
          eapply consistent_mark;
          [eassumption|reflexivity|discriminate
          |first [left; congruence|right; assumption]|]
      | |- Consistent _ (_ ++ [mkSeqTask ?t _]) _ _ _ _ _ =>
          apply (consistent_add _ _ _ _ _ _ _ [t])
      | |- Consistent _ (_ ++ assign_seq _ _) _ _ _ _ _ => apply consistent_add
      | |- Consistent _ (drop_task _ _) (drop_proxy _ _) _ _ _ (mark_deleted _ _) =>
          eapply consistent_delete_running; [eassumption|]
      | |- Consistent _ (drop_task _ _) _ (drop_task _ _) _ _ _ =>
          eapply consistent_delete_waiting; [eassumption|eassumption|]
      | |- Consistent _ (drop_task _ _) _ _ (drop_result _ _) (drop_result _ _) _ =>
          eapply consistent_delete_done; [eassumption|eassumption|]
      end ].

Lemma completion_calls_return_app tp ev1 ev2 :
  completion_calls_return tp (ev1 ++ ev2) = true ↔
  completion_calls_return tp ev1 = true ∧ completion_calls_return tp ev2 = true.
Proof. unfold completion_calls_return. by rewrite forallb_app, andb_true_iff. Qed.

Lemma completion_calls_return_ext tp tp' ev :
  executor tp' = executor tp →
  completion_calls_return tp' ev = completion_calls_return tp ev.
Proof.
  intros He. unfold completion_calls_return, executor_call_throws. by rewrite He.
Qed.

(** Every transition but [stop] and [reset] keeps the pools consistent, as
    long as no exception leaves a [then] callback. *)
Lemma step_consistent op tp :
  consistent tp → drops_running op = false →
  match op with
  | Settle _ _ => completion_calls_return tp (step op tp).2 = true
  | Catch _ => none_thrown (promises tp)
  | _ => True
  end →
  consistent (step op tp).1.
Proof.
  unfold consistent, completion_calls_return, executor_call_throws, none_thrown.
  destruct tp. simpl. intros HC Hop Hq.
  destruct op as [task|s| | | |n| | |b'|b'|pid o|pid|pid]; try done.
  all: pool_unfold; pool_cases; fill_commute;
       try congruence; try (exfalso; eapply Hq; eassumption);
       solve_consistent.
Qed.

Lemma new_consistent taskPool ex c mo im au sub :
  consistent (new_TaskPool taskPool ex c mo im au sub).
Proof.
  unfold consistent. simpl. constructor.
  - rewrite seq_assign_seq. apply NoDup_seq.
  - simpl. by rewrite app_nil_r.
  - apply Forall_forall. intros t Ht.
    assert (Hs : t_seq t ∈ seq 0 (length taskPool)).
    { rewrite <- seq_assign_seq. by apply list_elem_of_fmap_2. }
    apply elem_of_seq in Hs. lia.
  - done.
  - done.
  - apply live_nil.
  - apply NoDup_nil_2.
  - done.
Qed.

Lemma none_thrown_fill c rest rp P r rp' P' ev :
  fill c rest rp P = (r, rp', P', ev) → none_thrown P → none_thrown P'.
Proof.
  rewrite fill_eq. intros [= <- <- <- <-] Hn pid cl e [H|[_ H]]%lookup_app_Some.
  - by eapply Hn.
  - apply list_lookup_fmap_Some in H as (p & -> & _). done.
Qed.

Lemma none_thrown_insert P q x :
  (∀ e, c_phase x ≠ Thrown e) → none_thrown P → none_thrown (<[q := x]> P).
Proof.
  intros Hx Hn pid cl e [[-> [<- _]]|[Hne Hl]]%list_lookup_insert_Some; [done|].
  by eapply Hn.
Qed.

Lemma none_thrown_mark P q : none_thrown P → none_thrown (mark_deleted q P).
Proof.
  intros Hn. unfold mark_deleted. destruct (P !! q) as [c|] eqn:E; [|done].
  apply none_thrown_insert; [|done]. intros e. simpl. by eapply Hn.
Qed.

(** As long as the per-completion calls return, no chain waits for its
    [catch] callback. *)
Lemma step_none_thrown op tp :
  completion_calls_return tp (step op tp).2 = true → none_thrown (promises tp) →
  none_thrown (promises (step op tp).1).
Proof.
  unfold completion_calls_return, executor_call_throws. destruct tp. simpl.
  intros Hret Hn.
  destruct op as [task|s| | | |n| | |b'|b'|pid o|pid|pid]; try done.
  all: pool_unfold; pool_cases; fill_commute; try congruence;
       simpl;
       repeat first
         [ assumption
         | eapply none_thrown_fill; [eassumption|]
         | apply none_thrown_mark
         | apply none_thrown_insert; [done|] ].
Qed.

Lemma run_consistent ops tp :
  completion_calls_return tp (run ops tp).2 = true →
  none_thrown (promises tp) → consistent tp →
  forallb (λ op, negb (drops_running op)) ops = true →
  consistent (run ops tp).1.
Proof.
  revert tp; induction ops as [|op ops IH]; intros tp Hret Hn HC Hops; [done|].
  simpl in Hops. apply andb_prop in Hops as [Hop Hops].
  apply negb_true_iff in Hop.
  rewrite run_cons in Hret |- *. cbn [fst snd] in *.
  apply completion_calls_return_app in Hret as [Hret1 Hret2].
  apply IH; [| | |done].
  - rewrite <- Hret2. apply completion_calls_return_ext. apply step_options.
  - by apply step_none_thrown.
  - apply step_consistent; [done|done|]. by destruct op.
Qed.

Lemma none_thrown_nil : none_thrown [].
Proof. by intros pid c e ?. Qed.

(** What a run from construction reaches. *)
Lemma reachable_pools_consistent taskPool ex c mo im au sub ops :
  let tp := new_TaskPool taskPool ex c mo im au sub in
  completion_calls_return tp (run ops tp).2 = true →
  forallb (λ op, negb (drops_running op)) ops = true →
  consistent (run ops tp).1.
Proof.
  intros tp Hret Hops.
  apply run_consistent; [done|apply none_thrown_nil|apply new_consistent|done].
Qed.

(** The chunk holds records of [resultPool], whatever is called and
    whatever the callbacks do. *)
Lemma step_chunk_sub op tp :
  chunkResultPool tp ⊆ resultPool tp →
  chunkResultPool (step op tp).1 ⊆ resultPool (step op tp).1.
Proof.
  destruct tp. simpl. intros Hsub.
  destruct op as [task|s| | | |n| | |b'|b'|pid o|pid|pid]; try done.
  all: pool_unfold; pool_cases; pool_simpl; unfold drop_result; intros x;
       rewrite ?sort_by_seq_perm, ?elem_of_app, ?list_elem_of_filter;
       specialize (Hsub x); try tauto; by intros ?%elem_of_nil.
Qed.

Lemma run_chunk_sub ops tp :
  chunkResultPool tp ⊆ resultPool tp →
  chunkResultPool (run ops tp).1 ⊆ resultPool (run ops tp).1.
Proof.
  revert tp; induction ops as [|op ops IH]; intros tp Hsub; [done|].
  rewrite run_cons. cbn [fst]. by apply IH, step_chunk_sub.
Qed.

(** X15: as long as neither [stop()] nor [reset()] is called and no
    per-completion call of the result callback made so far has thrown, the
    state reached from construction is consistent: the known tasks have
    distinct seqs below [index], each of them is exactly one of running,
    waiting and finished, the running proxies are those of the pending chains
    not marked deleted, and the records of the chunk have distinct seqs and
    are records of [resultPool]. *)
Theorem reachable_consistent taskPool ex c mo im au sub ops :
  let tp0 := new_TaskPool taskPool ex c mo im au sub in
  completion_calls_return tp0 (run ops tp0).2 = true →
  forallb (λ op, negb (drops_running op)) ops = true →
  let tp := (run ops tp0).1 in
  consistent tp ∧ chunkResultPool tp ⊆ resultPool tp.
Proof.
  intros tp0 Hret Hops tp. split.
  - by apply reachable_pools_consistent.
  - by apply run_chunk_sub.
Qed.

Lemma reachable_consistent_witness :
  consistent
    (run [Start; Settle 1 (Fulfilled 4); DeleteTask 0; AddTask (Many [add_task 4 4]);
          Finally 1; DeleteTask 1; Settle 0 (Rejected 5)] pool_ordered_immediate).1.
Proof.
  exact (proj1 (reachable_consistent [add_task 1 1; add_task 2 2]
           (Some returning) 2 true true false None
           [Start; Settle 1 (Fulfilled 4); DeleteTask 0; AddTask (Many [add_task 4 4]);
            Finally 1; DeleteTask 1; Settle 0 (Rejected 5)] eq_refl eq_refl)).
Defined.

(** What an exception in a per-completion call does to the pools: the
    [then] callback of task 0 has pushed its record and throws, so the proxy
    stays in [runningPool]; the [catch] callback then pushes a second record
    for seq 0 and throws in turn, so no pass follows. *)
Example throwing_callback_trace :
  let tp1 := (run [Start; Settle 0 (Fulfilled 2)] pool_each_throws).1 in
  let tp2 := (run [Start; Settle 0 (Fulfilled 2); Catch 0] pool_each_throws).1 in
  resultPool tp1 = [mkResult 0 2 success]
  ∧ p_seq <$> runningPool tp1 = [0]
  ∧ resultPool tp2 = [mkResult 0 2 success; mkResult 0 13 error]
  ∧ total (getStatus tp2) = 1 ∧ finished (getStatus tp2) = 2.
Proof. by vm_compute. Qed.

Lemma consistent_total tp :
  consistent tp →
  length (allTasks tp)
  = length (runningPool tp) + length (restPool tp) + length (resultPool tp).
Proof.
  intros [_ Hperm _ _ _ _ _ _].
  apply Permutation_length in Hperm.
  rewrite !length_app, !length_fmap in Hperm. lia.
Qed.

(** X16: as long as neither [stop()] nor [reset()] is called and no
    per-completion call of the result callback made so far has thrown,
    [getStatus()] adds up in the state reached from construction:
    [total = running + waiting + finished]. *)
Theorem status_adds_up taskPool ex c mo im au sub ops :
  let tp0 := new_TaskPool taskPool ex c mo im au sub in
  completion_calls_return tp0 (run ops tp0).2 = true →
  forallb (λ op, negb (drops_running op)) ops = true →
  let st := getStatus (run ops tp0).1 in
  total st = running st + waiting st + finished st.
Proof.
  intros tp0 Hret Hops. simpl.
  apply consistent_total. by apply reachable_pools_consistent.
Qed.

Lemma status_adds_up_witness :
  let st := getStatus (run [Start; Settle 1 (Fulfilled 4); DeleteTask 0;
                            AddTask (Many [add_task 4 4])] pool_ordered_immediate).1 in
  total st = running st + waiting st + finished st.
Proof.
  exact (status_adds_up [add_task 1 1; add_task 2 2]
           (Some returning) 2 true true false None
           [Start; Settle 1 (Fulfilled 4); DeleteTask 0; AddTask (Many [add_task 4 4])]
           eq_refl eq_refl).
Defined.

(** X17: as long as neither [stop()] nor [reset()] is called and no
    per-completion call of the result callback made so far has thrown, no
    task has two records in the state reached from construction: the seqs of
    [resultPool] are distinct, as are those of [chunkResultPool]; every record
    belongs to a task that [getAllTasks()] still lists, and that task is
    neither running nor waiting. *)
Theorem one_record_per_task taskPool ex c mo im au sub ops :
  let tp0 := new_TaskPool taskPool ex c mo im au sub in
  completion_calls_return tp0 (run ops tp0).2 = true →
  forallb (λ op, negb (drops_running op)) ops = true →
  let tp := (run ops tp0).1 in
  NoDup (r_seq <$> resultPool tp)
  ∧ NoDup (r_seq <$> chunkResultPool tp)
  ∧ ∀ r, r ∈ resultPool tp →
      (r_seq r ∈ t_seq <$> getAllTasks tp)
      ∧ (r_seq r ∉ p_seq <$> runningPool tp)
      ∧ (r_seq r ∉ t_seq <$> restPool tp).
Proof.
  intros tp0 Hret Hops tp.
  assert (HC : consistent tp) by by apply reachable_pools_consistent.
  pose proof (consistent_pools_nodup _ _ _ _ _ _ _ HC) as Hpn.
  destruct HC as [Hnd Hperm Hidx Hids Htr Hlive Hcn Hcs].
  rewrite app_assoc in Hpn. apply NoDup_app in Hpn as (Hrw & Hdisj & Hres).
  split_and!; [done|done|].
  intros r Hr. apply (list_elem_of_fmap_2 r_seq) in Hr.
  split_and!.
  - unfold getAllTasks. rewrite Hperm, app_assoc. apply elem_of_app. by right.
  - intros Hin. eapply Hdisj; [|exact Hr]. apply elem_of_app. by left.
  - intros Hin. eapply Hdisj; [|exact Hr]. apply elem_of_app. by right.
Qed.

Lemma one_record_per_task_witness :
  NoDup (r_seq <$> resultPool
           (run [Start; Settle 1 (Fulfilled 4); Settle 0 (Fulfilled 2);
                 AddTask (One (add_task 3 3)); Settle 2 (Rejected 1)]
                pool_ordered_immediate).1).
Proof.
  exact (proj1 (one_record_per_task [add_task 1 1; add_task 2 2]
           (Some returning) 2 true true false None
           [Start; Settle 1 (Fulfilled 4); Settle 0 (Fulfilled 2);
            AddTask (One (add_task 3 3)); Settle 2 (Rejected 1)] eq_refl eq_refl)).
Defined.

Lemma sorted_strict l :
  Sorted seq_le l → NoDup (r_seq <$> l) → Sorted seq_lt l.
Proof.
  induction 1 as [|x l Hs IH Hx]; [constructor|].
  rewrite fmap_cons, NoDup_cons. intros [Hni Hnd].
  constructor; [by apply IH|].
  destruct Hx as [|y l Hxy]; constructor.
  unfold seq_le, seq_lt in *.
  assert (r_seq x ≠ r_seq y); [|lia].
  intros Heq. apply Hni. rewrite Heq, fmap_cons. apply list_elem_of_here.
Qed.

(** X18: in a consistent pool with [maintainOrder = true], every array that
    a [finally] callback passes to the result callback or to the submit
    callback is strictly ascending by seq. *)
Theorem drain_delivers_strictly_sorted pid tp e l :
  consistent tp → maintainOrder tp = true →
  e ∈ (finally pid tp).2 → delivered e = Some l →
  Sorted seq_lt l.
Proof.
  intros HC Hmo He Hd.
  pose proof (finally_delivers_sorted pid tp e l Hmo He Hd) as Hs.
  pose proof (finally_delivers_perm pid tp e l He Hd) as Hp.
  pose proof (consistent_pools_nodup _ _ _ _ _ _ _ HC) as Hpn.
  rewrite app_assoc in Hpn. apply NoDup_app in Hpn as (_ & _ & Hr).
  pose proof (cons_chunk_nodup _ _ _ _ _ _ _ HC) as Hc.
  apply sorted_strict; [done|].
  destruct Hp as [-> | ->]; done.
Qed.

Lemma drain_delivers_strictly_sorted_witness :
  Sorted seq_lt [mkResult 0 2 success; mkResult 1 4 success].
Proof.
  apply (drain_delivers_strictly_sorted 0
           (run [Start; Settle 1 (Fulfilled 4); Finally 1; Settle 0 (Fulfilled 2)]
                (new_TaskPool [add_task 1 1; add_task 2 2] (Some returning) 2 true false false None)).1
           (ExecutorCall [mkResult 0 2 success; mkResult 1 4 success] None None None)).
  - exact (reachable_pools_consistent [add_task 1 1; add_task 2 2] (Some returning) 2
             true false false None
             [Start; Settle 1 (Fulfilled 4); Finally 1; Settle 0 (Fulfilled 2)]
             eq_refl eq_refl).
  - reflexivity.
  - vm_compute. apply list_elem_of_here.
  - reflexivity.
Defined.




(** ** The bodies called *)

Lemma started_task_calls ts : started (task_call <$> ts) = t_seq <$> ts.
Proof.
  induction ts as [|t ts IH]; [done|].
  rewrite !fmap_cons.
  change (started (task_call t :: (task_call <$> ts)))
    with (t_seq t :: started (task_call <$> ts)).
  by rewrite IH.
Qed.

Lemma started_app ev1 ev2 : started (ev1 ++ ev2) = started ev1 ++ started ev2.
Proof. apply omap_app. Qed.

(** ** Work conservation and completion *)

Lemma fill_saturates c rest rp P r rp' P' ev :
  fill c rest rp P = (r, rp', P', ev) → free_slots c r rp' = 0.
Proof.
  rewrite fill_eq. intros [= <- <- <- <-]. unfold free_slots.
  rewrite length_drop, length_app, length_proxies_from, length_take. lia.
Qed.

Lemma step_saturated op tp :
  completion_calls_return tp (step op tp).2 = true →
  saturated tp → paused tp = false → autoSchedule tp = true →
  opens_slot op = false →
  saturated (step op tp).1 ∧ paused (step op tp).1 = false
  ∧ autoSchedule (step op tp).1 = true.
Proof.
  unfold saturated, completion_calls_return, executor_call_throws. destruct tp. simpl.
  intros Hret Hs -> -> Hop.
  destruct op as [task|s| | | |n| | |b'|b'|pid o|pid|pid]; try done.
  all: pool_unfold; pool_cases; try congruence; split_and!; try done;
       try (eapply fill_saturates; eassumption).
Qed.

Lemma run_saturated ops tp :
  completion_calls_return tp (run ops tp).2 = true →
  saturated tp → paused tp = false → autoSchedule tp = true →
  forallb (λ op, negb (opens_slot op)) ops = true →
  saturated (run ops tp).1.
Proof.
  revert tp. induction ops as [|op ops IH]; intros tp Hret Hs Hp Ha Hops; [done|].
  simpl in Hops. apply andb_prop in Hops as [Hop Hops].
  apply negb_true_iff in Hop.
  rewrite run_cons in Hret |- *. cbn [fst snd] in *.
  apply completion_calls_return_app in Hret as [Hret1 Hret2].
  destruct (step_saturated op tp Hret1 Hs Hp Ha Hop) as (Hs1 & Hp1 & Ha1).
  apply IH; try done.
  rewrite <- Hret2. apply completion_calls_return_ext. apply step_options.
Qed.

Lemma saturated_spec tp :
  saturated tp →
  restPool tp = [] ∨ (concurrency tp ≤ Z.of_nat (length (runningPool tp)))%Z.
Proof.
  unfold saturated, free_slots. intros H.
  destruct (restPool tp) as [|t rest]; [by left|right].
  cbn [length] in H. lia.
Qed.

(** X20: work conservation.  Once a pass has run, and as long as no
    per-completion call of the result callback throws and [pause],
    [setAutoSchedule] and [setConcurrency] are not called, a task waits only
    while at least [concurrency] tasks run: after every method and every
    callback, [restPool] is empty or [|runningPool| ≥ concurrency]. *)
Theorem work_conserving ops tp :
  completion_calls_return tp (run ops tp).2 = true →
  saturated tp → paused tp = false → autoSchedule tp = true →
  forallb (λ op, negb (opens_slot op)) ops = true →
  let tp' := (run ops tp).1 in
  restPool tp' = [] ∨ (concurrency tp' ≤ Z.of_nat (length (runningPool tp')))%Z.
Proof.
  intros Hret Hs Hp Ha Hops tp'. apply saturated_spec. by apply run_saturated.
Qed.

Lemma work_conserving_witness :
  let tp' := (run [Settle 0 (Fulfilled 2); AddTask (One (add_task 4 4)); DeleteTask 1]
                  (run [Start] pool_ordered_immediate).1).1 in
  restPool tp' = [] ∨ (concurrency tp' ≤ Z.of_nat (length (runningPool tp')))%Z.
Proof.
  exact (work_conserving
           [Settle 0 (Fulfilled 2); AddTask (One (add_task 4 4)); DeleteTask 1]
           (run [Start] pool_ordered_immediate).1
           eq_refl eq_refl eq_refl eq_refl eq_refl).
Defined.

(** Without that hypothesis a slot stays free beside a waiting task: the
    [then] callback of task 0 throws before it reaches the next pass, and so
    does its [catch] callback after it has removed the proxy. *)
Example throwing_callback_stalls :
  let tp := (run [Start; Settle 0 (Fulfilled 2); Catch 0]
                 (new_TaskPool [add_task 1 1; add_task 2 2] (Some (throwing 13)) 1
                               false true false None)).1 in
  p_seq <$> runningPool tp = [] ∧ t_seq <$> restPool tp = [1] ∧ concurrency tp = 1%Z.
Proof. by vm_compute. Qed.

Lemma forallb_weaken {A} (f g : A → bool) (l : list A) :
  (∀ x, f x = true → g x = true) → forallb f l = true → forallb g l = true.
Proof.
  intros Hfg. induction l as [|x l IH]; [done|]. simpl.
  intros [Hx Hl]%andb_prop. by rewrite (Hfg _ Hx), IH.
Qed.

Lemma step_fulfils op tp :
  only_fulfils op = true →
  Forall (λ r, r_status r = success) (resultPool tp) →
  allTasks (step op tp).1 = allTasks tp
  ∧ concurrency (step op tp).1 = concurrency tp
  ∧ Forall (λ r, r_status r = success) (resultPool (step op tp).1).
Proof.
  destruct tp. simpl. intros Hop HF.
  destruct op as [task|s| | | |n| | |b'|b'|pid o|pid|pid]; try done.
  all: pool_unfold; pool_cases; split_and!; pool_simpl; try done;
       rewrite ?sort_by_seq_perm; try done;
       apply Forall_app; (split; [done|by apply Forall_singleton]).
Qed.

Lemma run_fulfils ops tp :
  forallb only_fulfils ops = true →
  Forall (λ r, r_status r = success) (resultPool tp) →
  allTasks (run ops tp).1 = allTasks tp
  ∧ concurrency (run ops tp).1 = concurrency tp
  ∧ Forall (λ r, r_status r = success) (resultPool (run ops tp).1).
Proof.
  revert tp; induction ops as [|op ops IH]; intros tp Hops HF; [done|].
  simpl in Hops. apply andb_prop in Hops as [Hop Hops].
  destruct (step_fulfils op tp Hop HF) as (H1 & H2 & H3).
  destruct (IH _ Hops H3) as (H4 & H5 & H6).
  rewrite run_cons. cbn [fst]. by rewrite H4, H5, H1, H2.
Qed.

(** X21: completion.  A pool built with [N] tasks and [concurrency ≥ 1] is
    started, every body fulfils, and no per-completion call of the result
    callback throws.  Whenever no task is running any more, none is waiting
    either: all [N] tasks have finished, each with one success record, and
    [getStatus().finished = N]. *)
Theorem all_tasks_finish taskPool ex c mo im au sub ops :
  (1 ≤ c)%Z →
  forallb only_fulfils ops = true →
  let tp0 := new_TaskPool taskPool ex c mo im au sub in
  completion_calls_return tp0 (run (Start :: ops) tp0).2 = true →
  let tp := (run (Start :: ops) tp0).1 in
  runningPool tp = [] →
  restPool tp = []
  ∧ finished (getStatus tp) = length taskPool
  ∧ r_seq <$> resultPool tp ≡ₚ seq 0 (length taskPool)
  ∧ Forall (λ r, r_status r = success) (resultPool tp).
Proof.
  intros Hc Hops tp0 Hret tp Hrp.
  assert (Htp : tp = (run ops (start tp0).1).1).
  { subst tp. by rewrite run_cons. }
  assert (Hst : start tp0 = executorFn (set_isRunning true tp0)) by done.
  destruct (executorFn_shape (set_isRunning true tp0)) as (r & rp & P & Hsh).
  assert (Hsat : saturated (start tp0).1).
  { rewrite Hst. by apply executorFn_saturates. }
  assert (Hp0 : paused (start tp0).1 = false) by by rewrite Hst, Hsh.
  assert (Ha0 : autoSchedule (start tp0).1 = true) by by rewrite Hst, Hsh.
  assert (Hc0 : concurrency (start tp0).1 = c) by by rewrite Hst, Hsh.
  assert (Hall0 : allTasks (start tp0).1 = assign_seq 0 taskPool) by by rewrite Hst, Hsh.
  assert (Hres0 : resultPool (start tp0).1 = []) by by rewrite Hst, Hsh.
  assert (Hno : forallb (λ op, negb (opens_slot op)) ops = true).
  { eapply forallb_weaken; [|exact Hops]. by intros [] ?. }
  assert (Hnd : forallb (λ op, negb (drops_running op)) (Start :: ops) = true).
  { simpl. eapply forallb_weaken; [|exact Hops]. by intros [] ?. }
  pose proof (reachable_pools_consistent taskPool ex c mo im au sub (Start :: ops)
                Hret Hnd) as Hcons.
  change (consistent tp) in Hcons.
  destruct (run_fulfils ops (start tp0).1 Hops) as (Hall & Hconc & Hsucc).
  { rewrite Hres0. constructor. }
  assert (Hret0 : completion_calls_return (start tp0).1 (run ops (start tp0).1).2 = true).
  { rewrite run_cons in Hret. cbn [snd step] in Hret.
    apply completion_calls_return_app in Hret as [_ Hret].
    rewrite <- Hret. apply completion_calls_return_ext.
    apply (step_options Start tp0). }
  pose proof (saturated_spec _
                (run_saturated ops (start tp0).1 Hret0 Hsat Hp0 Ha0 Hno)) as Hwc.
  rewrite <- Htp in Hall, Hconc, Hsucc, Hwc.
  assert (Hrest : restPool tp = []).
  { destruct Hwc as [|Hwc]; [done|].
    rewrite Hrp, Hconc, Hc0 in Hwc. simpl in Hwc. lia. }
  destruct Hcons as [_ Hperm _ _ _ _ _ _].
  rewrite Hrp, Hrest, Hall, Hall0, seq_assign_seq in Hperm. simpl in Hperm.
  split_and!; [done| |done|done].
  simpl. apply Permutation_length in Hperm.
  by rewrite length_seq, length_fmap in Hperm.
Qed.

Lemma all_tasks_finish_witness :
  let tp := (run [Start; Settle 1 (Fulfilled 4); Finally 1; Settle 0 (Fulfilled 2);
                  Settle 2 (Fulfilled 6); Finally 2; Finally 0] pool_three).1 in
  restPool tp = [] ∧ finished (getStatus tp) = 3.
Proof.
  destruct (all_tasks_finish [add_task 1 1; add_task 2 2; add_task 3 3]
              None 2 false false false None
              [Settle 1 (Fulfilled 4); Finally 1; Settle 0 (Fulfilled 2);
               Settle 2 (Fulfilled 6); Finally 2; Finally 0]
              ltac:(lia) eq_refl eq_refl eq_refl) as (H1 & H2 & _).
  split; [exact H1|exact H2].
Defined.

Lemma settle_allTasks pid o tp : allTasks (settle pid o tp).1 = allTasks tp.
Proof.
  destruct tp. change (settle pid o ?x) with (step (Settle pid o) x).
  pool_unfold; pool_cases; done.
Qed.

(** X22: progress.  In a consistent pool the settlement of a running task,
    fulfilled or rejected, whose per-completion call of the result callback
    (if one is made) returns, moves exactly one task to the finished ones:
    [finished] grows by one and [running + waiting] shrinks by one, whatever
    the pass that follows promotes. *)
Theorem settlement_progress tp p o :
  consistent tp → p ∈ runningPool tp →
  completion_calls_return tp (settle (p_id p) o tp).2 = true →
  let tp' := (settle (p_id p) o tp).1 in
  resultPool tp' = resultPool tp ++ [outcome_record (p_seq p) o]
  ∧ finished (getStatus tp') = finished (getStatus tp) + 1
  ∧ running (getStatus tp') + waiting (getStatus tp') + 1
    = running (getStatus tp) + waiting (getStatus tp).
Proof.
  intros HC Hp Hret tp'.
  pose proof (cons_live _ _ _ _ _ _ _ HC p Hp) as Hc.
  destruct (settle_live (p_id p) _ o tp Hc eq_refl eq_refl) as (Hres & _ & _).
  simpl in Hres. fold tp' in Hres.
  assert (HC' : consistent tp')
    by exact (step_consistent (Settle (p_id p) o) tp HC eq_refl Hret).
  pose proof (consistent_total tp HC) as H1.
  pose proof (consistent_total tp' HC') as H2.
  assert (Hall : allTasks tp' = allTasks tp) by apply settle_allTasks.
  simpl in *. rewrite Hall in H2. rewrite Hres in *. rewrite length_app in *. simpl in *.
  split_and!; [done|lia|lia].
Qed.

Lemma settlement_progress_witness :
  let tp := (run [Start] pool_ordered_immediate).1 in
  finished (getStatus (settle 0 (Rejected 5) tp).1) = finished (getStatus tp) + 1.
Proof.
  refine (proj1 (proj2 (settlement_progress (run [Start] pool_ordered_immediate).1
                          (mkProxy 0 0 [1; 1]%Z 0) (Rejected 5) _ _ eq_refl))).
  - exact (reachable_pools_consistent [add_task 1 1; add_task 2 2]
             (Some returning) 2 true true false None [Start] eq_refl eq_refl).
  - vm_compute. apply list_elem_of_here.
Defined.

(** ** Start order *)

Lemma StronglySorted_filter_lt (Q : nat → Prop) `{∀ x, Decision (Q x)} (l : list nat) :
  StronglySorted lt l → StronglySorted lt (filter Q l).
Proof.
  induction 1 as [|x l Hl IH Hx]; [constructor|].
  rewrite filter_cons. destruct (decide (Q x)); [|done].
  constructor; [done|].
  rewrite Forall_forall in Hx. apply Forall_forall.
  intros y [_ Hy]%list_elem_of_filter. by apply Hx.
Qed.

Lemma StronglySorted_seq i n : StronglySorted lt (seq i n).
Proof.
  revert i; induction n as [|n IH]; intros i; simpl; constructor; [apply IH|].
  apply Forall_forall. intros y [Hy _]%elem_of_seq. lia.
Qed.

Lemma starts_in_order_fill idx hs c rest rp P r rp' P' ev :
  fill c rest rp P = (r, rp', P', ev) →
  starts_in_order idx rest hs → starts_in_order idx r (hs ++ started ev).
Proof.
  rewrite fill_eq. intros [= <- <- <- <-]. unfold starts_in_order.
  rewrite body_call_proxies_from, started_task_calls, <- !app_assoc, <- fmap_app.
  by rewrite take_drop.
Qed.

Lemma starts_in_order_add idx hs rest ts :
  starts_in_order idx rest hs →
  starts_in_order (idx + length (assign_seq idx ts)) (rest ++ assign_seq idx ts) hs.
Proof.
  intros [Hs Hidx]. unfold starts_in_order.
  rewrite fmap_app, seq_assign_seq, length_assign_seq, !app_assoc. split.
  - apply StronglySorted_app_2; [|done|apply StronglySorted_seq].
    intros x1 x2 Hx1 [Hx2 _]%elem_of_seq. rewrite Forall_forall in Hidx.
    apply Hidx in Hx1. lia.
  - apply Forall_app. split.
    + eapply Forall_impl; [exact Hidx|]. simpl. lia.
    + apply Forall_forall. intros s [_ Hs']%elem_of_seq. lia.
Qed.

Lemma starts_in_order_drop idx hs rest seq :
  starts_in_order idx rest hs → starts_in_order idx (drop_task seq rest) hs.
Proof.
  intros [Hs Hidx]. unfold starts_in_order. rewrite seq_drop_task.
  apply StronglySorted_app in Hs as (H1 & H2 & H3).
  apply Forall_app in Hidx as [H4 H5]. split.
  - apply StronglySorted_app_2; [|done|by apply StronglySorted_filter_lt].
    intros x1 x2 Hx1 [_ Hx2]%list_elem_of_filter. by apply H1.
  - apply Forall_app. split; [done|].
    rewrite Forall_forall in H5. apply Forall_forall.
    intros s [_ Hin]%list_elem_of_filter. by apply H5.
Qed.

Lemma starts_in_order_nil idx hs rest :
  starts_in_order idx rest hs → starts_in_order idx [] hs.
Proof.
  intros [Hs Hidx]. unfold starts_in_order. simpl. rewrite app_nil_r.
  apply StronglySorted_app_1_l in Hs. by apply Forall_app in Hidx as [H4 _].
Qed.

Ltac solve_starts_in_order :=
  pool_simpl; rewrite ?started_app; cbn [started omap started_seq app];
  rewrite ?app_nil_r;
  repeat first
    [ eassumption
    | eapply starts_in_order_fill; [eassumption|]
    | match goal with
      | |- starts_in_order _ (_ ++ [mkSeqTask ?t _]) _ =>
          apply (starts_in_order_add _ _ _ [t])
      | |- starts_in_order _ (_ ++ assign_seq _ _) _ => apply starts_in_order_add
      | |- starts_in_order _ (drop_task _ _) _ => apply starts_in_order_drop
      | |- starts_in_order _ [] _ => eapply starts_in_order_nil
      end ].

Lemma step_starts_in_order hs op tp :
  starts_in_order (index tp) (restPool tp) hs → is_reset op = false →
  starts_in_order (index (step op tp).1) (restPool (step op tp).1)
                  (hs ++ started (step op tp).2).
Proof.
  destruct tp. simpl. intros HQ Hop.
  destruct op as [task|s| | | |n| | |b'|b'|pid o|pid|pid]; try done;
    try (simpl; rewrite app_nil_r; by eauto using starts_in_order_nil).
  all: pool_unfold; pool_cases; solve_starts_in_order.
Qed.

Lemma run_starts_in_order hs ops tp :
  starts_in_order (index tp) (restPool tp) hs →
  forallb (λ op, negb (is_reset op)) ops = true →
  starts_in_order (index (run ops tp).1) (restPool (run ops tp).1)
                  (hs ++ started (run ops tp).2).
Proof.
  revert hs tp; induction ops as [|op ops IH]; intros hs tp HQ Hops.
  - simpl. by rewrite app_nil_r.
  - simpl in Hops. apply andb_prop in Hops as [Hop Hops].
    apply negb_true_iff in Hop.
    rewrite run_cons. cbn [fst snd]. rewrite started_app, app_assoc.
    apply IH; [|done]. by apply step_starts_in_order.
Qed.

Lemma StronglySorted_lt_NoDup (l : list nat) : StronglySorted lt l → NoDup l.
Proof.
  induction 1 as [|x l Hl IH Hx]; constructor; [|done].
  intros Hin. rewrite Forall_forall in Hx. apply Hx in Hin. lia.
Qed.

(** X23: start order is insertion order.  As long as the pool is not reset,
    along any run from construction the bodies are called in strictly
    ascending seq order, whatever [maintainOrder] is; so no body is called
    twice, and every task still waiting has a larger seq than every task
    started. *)
Theorem bodies_start_in_seq_order taskPool ex c mo im au sub ops :
  forallb (λ op, negb (is_reset op)) ops = true →
  let r := run ops (new_TaskPool taskPool ex c mo im au sub) in
  StronglySorted lt (started r.2)
  ∧ NoDup (started r.2)
  ∧ ∀ s t, s ∈ started r.2 → t ∈ restPool r.1 → s < t_seq t.
Proof.
  intros Hops r.
  assert (H0 : starts_in_order (index (new_TaskPool taskPool ex c mo im au sub))
                 (restPool (new_TaskPool taskPool ex c mo im au sub)) []).
  { unfold starts_in_order. simpl. rewrite seq_assign_seq.
    split; [apply StronglySorted_seq|].
    apply Forall_forall. intros s [_ Hs]%elem_of_seq. lia. }
  destruct (run_starts_in_order [] ops _ H0 Hops) as [Hs _].
  simpl in Hs. apply StronglySorted_app in Hs as (H1 & H2 & _).
  split_and!; [done|by apply StronglySorted_lt_NoDup|].
  intros s t Hs Ht. apply H1; [done|]. by apply list_elem_of_fmap_2.
Qed.

Lemma bodies_start_in_seq_order_witness :
  StronglySorted lt
    (started (run [Start; AddTask (Many [add_task 4 4; add_task 5 5]); DeleteTask 2;
                   Settle 0 (Fulfilled 2); Settle 1 (Rejected 0); Stop;
                   AddTask (One (add_task 6 6))] pool_three).2).
Proof.
  exact (proj1 (bodies_start_in_seq_order [add_task 1 1; add_task 2 2; add_task 3 3]
                  None 2 false false false None
                  [Start; AddTask (Many [add_task 4 4; add_task 5 5]); DeleteTask 2;
                   Settle 0 (Fulfilled 2); Settle 1 (Rejected 0); Stop;
                   AddTask (One (add_task 6 6))] eq_refl)).
Defined.

(** ** [stop] *)

(** X24: [stop()] discards the waiting tasks for good.  No task accepted
    before [stop()] (seq below [index]) that had not been started yet is
    started afterwards, whatever is called and whatever settles, as long as
    the pool is not reset; the pool keeps its records, its chunk, its task
    list and its counter. *)
Theorem stop_discards_waiting tp seq ops :
  seq < index tp →
  forallb (λ op, negb (is_reset op)) ops = true →
  filter (starts_seq seq) (run ops (stop tp)).2 = []
  ∧ resultPool (stop tp) = resultPool tp
  ∧ chunkResultPool (stop tp) = chunkResultPool tp
  ∧ allTasks (stop tp) = allTasks tp
  ∧ index (stop tp) = index tp
  ∧ getStatus (stop tp)
    = mkStatus (length (allTasks tp)) 0 0 (length (resultPool tp))
               (length (chunkResultPool tp)) (resultPool tp) false.
Proof.
  intros Hi Hops. split_and!; try done.
  apply (run_never_starts seq ops (stop tp)); [apply Forall_nil_2|done|done].
Qed.

Lemma stop_discards_waiting_witness :
  filter (starts_seq 2)
    (run [Start; AddTask (One (add_task 4 4)); Settle 0 (Fulfilled 2); Resume]
         (stop (run [Start] pool_three).1)).2 = [].
Proof.
  exact (proj1 (stop_discards_waiting (run [Start] pool_three).1 2
                  [Start; AddTask (One (add_task 4 4)); Settle 0 (Fulfilled 2); Resume]
                  ltac:(vm_compute; lia) eq_refl)).
Defined.
